(** * Level-up notification pipeline and native-shell wrapper

    A shallow embedding of

    - [game/hud/level-up/utils.ts]            (skill-name formatting),
    - [game/hud/level-up/levelUpAudio.ts]     (milestone classification),
    - [game/hud/level-up/useLevelUpState.ts]  (queue and dismissal hook),
    - [game/hud/level-up/LevelUpNotification.tsx] (fire-once dispatcher),
    - the Tauri integration module            (OAuth callback, URL opening),
    - the two fanfares of [levelUpAudio.ts] on the Web Audio API,
    - the type guards of [utils.ts],

    followed by the properties of these functions.

    Conventions of the embedding.
    - A JavaScript [number] that the code uses as an integer (levels,
      timestamps) is a [Z]; the sfx gain, a real in the source, is a [Q].
    - A JavaScript string of ASCII characters is a [string]; the case
      conversions and the [\s] class of module [Js] are ECMAScript's on
      ASCII, and what is proved of them is proved of ASCII strings.  Module
      [Utf16] has strings as lists of UTF-16 code units, with the host's
      tables as partial functions.
    - [null] and [undefined] are [None].
    - A call that may throw returns a [completion]; calls on the collaborators
      (audio, chat, console, window, the Tauri plugins) are recorded in a
      trace of [io] events.
    - React state is passed explicitly: a [useState] pair is a record field
      and a setter call is a record update; a [useRef] cell is a field too. *)

From Stdlib Require Import ZArith QArith Lqa Ascii String List Bool Lia.
From Stdlib Require Import Numbers.DecimalString.
From stdpp Require Import base list gmap sets.

Local Open Scope Z_scope.

(* ===================================================================== *)
(** * JavaScript values shared by the modules                             *)
(* ===================================================================== *)

Module Js.

(** Thrown values: only the constructor and the message matter. *)
Inductive exn : Type :=
| TypeError (msg : string)
| ReferenceError (msg : string)
| Error (msg : string).

(** Outcome of evaluating a call: a value, or a thrown exception (an
    [await]ed promise that rejects is a [Throw] as well). *)
Inductive completion (A : Type) : Type :=
| Normal (a : A)
| Throw (e : exn).
Arguments Normal {A} a.
Arguments Throw {A} e.

(** ** Strings of ASCII characters

    The host decides case and white space by Unicode tables; here they are
    given on ASCII code units (below 128), where a conversion is made
    character by character and depends on nothing around it.  On a code
    unit from 128 on the functions below are not the host's. *)

(** Every character of [s] is ASCII. *)
Fixpoint isAscii (s : string) : bool :=
  match s with
  | EmptyString => true
  | String c r => (N_of_ascii c <? 128)%N && isAscii r
  end.

Definition is_upper_ascii (c : ascii) : bool :=
  let n := N_of_ascii c in (65 <=? n)%N && (n <=? 90)%N.

Definition is_lower_ascii (c : ascii) : bool :=
  let n := N_of_ascii c in (97 <=? n)%N && (n <=? 122)%N.

Definition lower_char (c : ascii) : ascii :=
  if is_upper_ascii c then ascii_of_N (N_of_ascii c + 32) else c.

Definition upper_char (c : ascii) : ascii :=
  if is_lower_ascii c then ascii_of_N (N_of_ascii c - 32) else c.

(** The class [\s] on ASCII: TAB, LF, VT, FF, CR and SPACE. *)
Definition is_white_space (c : ascii) : bool :=
  let n := N_of_ascii c in ((9 <=? n)%N && (n <=? 13)%N) || (n =? 32)%N.

Fixpoint map_chars (f : ascii -> ascii) (s : string) : string :=
  match s with
  | EmptyString => EmptyString
  | String c r => String (f c) (map_chars f r)
  end.

(** [s.toLowerCase()] and [s.toUpperCase()] on an ASCII string. *)
Definition toLowerCase (s : string) : string := map_chars lower_char s.
Definition toUpperCase (s : string) : string := map_chars upper_char s.

(** [s.replace(/\s+/g, "")]: every maximal run of white space is replaced
    by the empty string, so exactly the white-space characters go. *)
Fixpoint replace_white_space (s : string) : string :=
  match s with
  | EmptyString => EmptyString
  | String c r =>
      if is_white_space c then replace_white_space r
      else String c (replace_white_space r)
  end.

(** [s.charAt(i)]: the one-character string at [i], or [""] out of range. *)
Definition charAt (s : string) (i : nat) : string :=
  match String.get i s with
  | Some c => String c EmptyString
  | None => EmptyString
  end.

(** [s.slice(start)] for a start index within [0 ..]: the suffix from
    [start], [""] when [start] is past the end. *)
Fixpoint slice (s : string) (start : nat) {struct start} : string :=
  match start, s with
  | O, _ => s
  | S _, EmptyString => EmptyString
  | S n, String _ r => slice r n
  end.

(** Number-to-string conversion of a template literal, on integers. *)
Definition numberToString (n : Z) : string :=
  NilZero.string_of_int (Z.to_int n).

(** [xs.includes(x)] on integers. *)
Fixpoint includes (xs : list Z) (x : Z) : bool :=
  match xs with
  | [] => false
  | y :: r => Z.eqb y x || includes r x
  end.

End Js.

(* ===================================================================== *)
(** * utils.ts                                                            *)
(* ===================================================================== *)

Module Utils.
Import Js.

(** [skill.toLowerCase().replace(/\s+/g, "")] *)
Definition normalizeSkillName (skill : string) : string :=
  replace_white_space (toLowerCase skill).

(** [skill.charAt(0).toUpperCase() + skill.slice(1).toLowerCase()] *)
Definition capitalizeSkill (skill : string) : string :=
  (toUpperCase (charAt skill 0) ++ toLowerCase (slice skill 1))%string.

End Utils.

(* ===================================================================== *)
(** * utils.ts on UTF-16 strings                                          *)
(* ===================================================================== *)

Module Utf16.

(** The Kelvin sign, U+212A. *)
Definition KELVIN_SIGN : N := 8490%N.

Definition isAsciiUnit (c : N) : bool := (c <? 128)%N.

(** The host's tables, one code unit at a time, where the development has
    them: ASCII and the Kelvin sign; [None] elsewhere.  In JavaScript
    ["\u212A".toLowerCase()] is ["k"], ["\u212A".toUpperCase()] is
    ["\u212A"] itself, and the Kelvin sign is no white space. *)
Definition lowerAscii (c : N) : N :=
  if (65 <=? c)%N && (c <=? 90)%N then (c + 32)%N else c.

Definition upperAscii (c : N) : N :=
  if (97 <=? c)%N && (c <=? 122)%N then (c - 32)%N else c.

Definition whiteAscii (c : N) : bool :=
  ((9 <=? c)%N && (c <=? 13)%N) || (c =? 32)%N.

Definition lowerCaseOf (c : N) : option (list N) :=
  if isAsciiUnit c then Some [lowerAscii c]
  else if (c =? KELVIN_SIGN)%N then Some [107%N]
  else None.

Definition upperCaseOf (c : N) : option (list N) :=
  if isAsciiUnit c then Some [upperAscii c]
  else if (c =? KELVIN_SIGN)%N then Some [KELVIN_SIGN]
  else None.

Definition whiteSpaceOf (c : N) : option bool :=
  if isAsciiUnit c then Some (whiteAscii c)
  else if (c =? KELVIN_SIGN)%N then Some false
  else None.

(** [s.toLowerCase()], [None] when a code unit of [s] is outside the
    tables. *)
Fixpoint toLowerCase (s : list N) : option (list N) :=
  match s with
  | [] => Some []
  | c :: r =>
      match lowerCaseOf c, toLowerCase r with
      | Some l, Some t => Some (l ++ t)
      | _, _ => None
      end
  end.

Fixpoint toUpperCase (s : list N) : option (list N) :=
  match s with
  | [] => Some []
  | c :: r =>
      match upperCaseOf c, toUpperCase r with
      | Some u, Some t => Some (u ++ t)
      | _, _ => None
      end
  end.

(** [s.replace(/\s+/g, "")] *)
Fixpoint replaceWhiteSpace (s : list N) : option (list N) :=
  match s with
  | [] => Some []
  | c :: r =>
      match whiteSpaceOf c, replaceWhiteSpace r with
      | Some w, Some t => Some (if w then t else c :: t)
      | _, _ => None
      end
  end.

(** [s.charAt(i)] and [s.slice(start)] *)
Definition charAt (s : list N) (i : nat) : list N :=
  match s !! i with Some c => [c] | None => [] end.

Definition slice (s : list N) (start : nat) : list N := drop start s.

(** [skill.toLowerCase().replace(/\s+/g, "")] *)
Definition normalizeSkillName (skill : list N) : option (list N) :=
  match toLowerCase skill with
  | Some lowered => replaceWhiteSpace lowered
  | None => None
  end.

(** [skill.charAt(0).toUpperCase() + skill.slice(1).toLowerCase()] *)
Definition capitalizeSkill (skill : list N) : option (list N) :=
  match toUpperCase (charAt skill 0), toLowerCase (slice skill 1) with
  | Some u, Some l => Some (u ++ l)
  | _, _ => None
  end.

(** [capitalizeSkill(normalizeSkillName(s))] *)
Definition formatSkill (s : list N) : option (list N) :=
  match normalizeSkillName s with
  | Some key => capitalizeSkill key
  | None => None
  end.

(** The format the specification describes: white space stripped from the
    input, then its first character in upper case and all the others in
    lower case.  Written from the specification, to be compared with
    [formatSkill]. *)
Definition spec_single_capitalized (s : list N) : option (list N) :=
  match replaceWhiteSpace s with
  | Some [] => Some []
  | Some (c :: r) =>
      match upperCaseOf c, toLowerCase r with
      | Some u, Some l => Some (u ++ l)
      | _, _ => None
      end
  | None => None
  end.

(** The code units of a string of the ASCII model. *)
Definition codeUnits (s : string) : list N :=
  map N_of_ascii (list_ascii_of_string s).

End Utf16.

(* ===================================================================== *)
(** * levelUpAudio.ts                                                     *)
(* ===================================================================== *)

Module LevelUpAudio.
Import Js.

Definition MILESTONE_LEVELS : list Z := [10; 25; 50; 75; 99].

Definition isMilestoneLevel (level : Z) : bool :=
  includes MILESTONE_LEVELS level.

(** The two fanfares; their oscillator schedules are presentation only. *)
Inductive sound : Type :=
| LevelUpSound            (* playLevelUpSound: four-note arpeggio *)
| MilestoneLevelUpSound.  (* playMilestoneLevelUpSound: two voices *)

Definition playLevelUpFanfare (level : Z) : sound :=
  if isMilestoneLevel level then MilestoneLevelUpSound else LevelUpSound.

End LevelUpAudio.

(* ===================================================================== *)
(** * Effects: a trace of collaborator calls, with exceptions             *)
(* ===================================================================== *)

Module Eff.
Import Js LevelUpAudio.

(** [ChatMessage] of the shared package, as the dispatcher fills it. *)
Record ChatMessage : Type := mkChatMessage {
  id : string;
  from : string;
  body : string;
  text : string;
  msg_timestamp : Z;
  createdAt : string
}.

(** Calls that leave the component. *)
Inductive io : Type :=
| AudioReady (played : sound)    (* audio.ready(() => playLevelUpFanfare(..)) *)
| ChatAdd (m : ChatMessage) (broadcast : bool)     (* chat.add(m, broadcast) *)
| ConsoleError (msg : string)
| ConsoleLog (msg : string)
| WindowOpen (url target : string)
| OpenerOpenUrl (url : string)
| CoreInvoke (cmd : string)
| EventListen (event : string).

(** A computation: the calls it made, in order, and how it completed. *)
Definition M (A : Type) : Type := (list io * completion A)%type.

Definition ret {A} (a : A) : M A := ([], Normal a).

Definition throw {A} (e : exn) : M A := ([], Throw e).

Definition bind {A B} (m : M A) (k : A -> M B) : M B :=
  match m with
  | (l, Normal a) => let '(l', r) := k a in (l ++ l', r)
  | (l, Throw e) => (l, Throw e)
  end.

(** [call ev r]: the call [ev] is made and completes as [r]. *)
Definition call {A} (ev : io) (r : completion A) : M A := ([ev], r).

(** A call without trace (a constructor, a dynamic import). *)
Definition lift {A} (r : completion A) : M A := ([], r).

(** [try { m } catch (e) { h e }] *)
Definition try_catch {A} (m : M A) (h : exn -> M A) : M A :=
  match m with
  | (l, Throw e) => let '(l', r) := h e in (l ++ l', r)
  | (l, Normal a) => (l, Normal a)
  end.

Definition calls {A} (m : M A) : list io := fst m.
Definition outcome {A} (m : M A) : completion A := snd m.

Declare Scope eff_scope.
Delimit Scope eff_scope with eff.
Notation "x <- m ;; k" := (bind m (fun x => k))
  (at level 100, m at next level, right associativity) : eff_scope.
Notation "m ;;; k" := (bind m (fun _ => k))
  (at level 100, right associativity) : eff_scope.

End Eff.

(* ===================================================================== *)
(** * useLevelUpState.ts                                                  *)
(* ===================================================================== *)

Module LevelUpState.

(** Payload of the SKILLS_LEVEL_UP event; the timestamp is optional. *)
Record SkillsLevelUpEvent : Type := mkData {
  data_skill : string;
  data_oldLevel : Z;
  data_newLevel : Z;
  data_timestamp : option Z
}.

Record LevelUpEvent : Type := mkEvent {
  skill : string;
  oldLevel : Z;
  newLevel : Z;
  timestamp : Z
}.

(** The two [useState] cells of the hook. *)
Record state : Type := mkState {
  levelUpQueue : list LevelUpEvent;
  currentLevelUp : option LevelUpEvent
}.

Definition initial : state := mkState [] None.

(** The event built by [handleLevelUp]; [now] is [Date.now()]. *)
Definition toLevelUpEvent (now : Z) (data : SkillsLevelUpEvent) : LevelUpEvent :=
  {| skill := data_skill data;
     oldLevel := data_oldLevel data;
     newLevel := data_newLevel data;
     timestamp := default now (data_timestamp data) |}.

(** [handleLevelUp]: [setLevelUpQueue((prev) => prev.concat(event))]. *)
Definition handleLevelUp (now : Z) (data : SkillsLevelUpEvent) (s : state) : state :=
  let event := toLevelUpEvent now data in
  {| levelUpQueue := levelUpQueue s ++ [event];
     currentLevelUp := currentLevelUp s |}.

(** The queue-processing effect (deps [currentLevelUp, levelUpQueue]):
    [if (!currentLevelUp && levelUpQueue.length > 0) {
       setCurrentLevelUp(levelUpQueue[0]);
       setLevelUpQueue(levelUpQueue.slice(1)); }]
    The guard and both values written are computed from the
    [currentLevelUp] and [levelUpQueue] that the render of the effect
    captured, [seen]; the two setters overwrite what the cells hold when the
    effect runs, [s].  So an update made between the render and its effect
    is lost to the queue cell. *)
Definition queueEffect (seen s : state) : state :=
  if negb (bool_decide (is_Some (currentLevelUp seen)))
     && (0 <? Z.of_nat (length (levelUpQueue seen)))
  then {| levelUpQueue := drop 1 (levelUpQueue seen);
          currentLevelUp := levelUpQueue seen !! 0%nat |}
  else s.

(** The effect when nothing has happened between its render and its run:
    the state it captured is the state it writes to. *)
Definition processQueue (s : state) : state := queueEffect s s.

(** [dismissLevelUp]: [setCurrentLevelUp(null)]. *)
Definition dismissLevelUp (s : state) : state :=
  {| levelUpQueue := levelUpQueue s; currentLevelUp := None |}.

(** What can happen to the hook when every effect runs right after its
    render: an event arrives, the popup is dismissed, the hook is rendered
    and its queue effect runs on the state just rendered. *)
Inductive action : Type :=
| Arrive (now : Z) (data : SkillsLevelUpEvent)
| Dismiss
| RunEffect.

(** One action; the first component is the item the presentation layer
    was showing when it dismissed it, if any. *)
Definition step (a : action) (s : state) : list LevelUpEvent * state :=
  match a with
  | Arrive now data => ([], handleLevelUp now data s)
  | Dismiss => (option_list (currentLevelUp s), dismissLevelUp s)
  | RunEffect => ([], processQueue s)
  end.

Fixpoint exec (tr : list action) (s : state) : list LevelUpEvent * state :=
  match tr with
  | [] => ([], s)
  | a :: r =>
      let '(shown, s1) := step a s in
      let '(more, s2) := exec r s1 in
      (shown ++ more, s2)
  end.

(** A run of arrivals alone: each payload with the clock reading at its
    receipt. *)
Definition enqueueAll (arrived : list (Z * SkillsLevelUpEvent)) : list action :=
  map (fun a => Arrive (fst a) (snd a)) arrived.

(** The events enqueued by a trace, in arrival order. *)
Fixpoint arrivals (tr : list action) : list LevelUpEvent :=
  match tr with
  | [] => []
  | Arrive now data :: r => toLevelUpEvent now data :: arrivals r
  | _ :: r => arrivals r
  end.

(** The consumer loop: let the effect run, read the current item,
    dismiss it, and again until nothing is current. *)
Fixpoint consume (fuel : nat) (s : state) : list LevelUpEvent :=
  match fuel with
  | O => []
  | S n =>
      let s1 := processQueue s in
      match currentLevelUp s1 with
      | None => []
      | Some e => e :: consume n (dismissLevelUp s1)
      end
  end.

(** The items a state still holds, in the order they will be shown. *)
Definition contents (s : state) : list LevelUpEvent :=
  option_list (currentLevelUp s) ++ levelUpQueue s.

(** One round for the current item and one for each queued item. *)
Definition drain (s : state) : list LevelUpEvent :=
  consume (S (length (levelUpQueue s))) s.

(** ** The hook under React's schedule

    [next] is the state with every update made so far applied in the order
    the setters were called, the state the next render will see; [rendered]
    is the state of the last render, the one its effects and the popup
    captured; [effectDue] tells whether the queue effect of that render has
    still to run. *)
Record mountedHook : Type := mkMounted {
  next : state;
  rendered : state;
  effectDue : bool
}.

(** After the first render of a mount. *)
Definition freshMount : mountedHook := mkMounted initial initial true.

Inductive occurrence : Type :=
| Delivered (now : Z) (data : SkillsLevelUpEvent)  (* the world emits SKILLS_LEVEL_UP *)
| Clicked                                          (* the popup calls onDismiss *)
| Rendered                                         (* React renders and commits *)
| EffectsRun.                                      (* React runs the effects of the last commit *)

(** The effect of the last render, if it has not run yet. *)
Definition runDueEffect (h : mountedHook) : mountedHook :=
  if effectDue h
  then {| next := queueEffect (rendered h) (next h);
          rendered := rendered h;
          effectDue := false |}
  else h.

(** One occurrence.  There is a popup to click only when the last render
    had a current item; React runs an effect that is still due before it
    renders again. *)
Definition occur (o : occurrence) (h : mountedHook) : mountedHook :=
  match o with
  | Delivered now data =>
      {| next := handleLevelUp now data (next h);
         rendered := rendered h;
         effectDue := effectDue h |}
  | Clicked =>
      if bool_decide (is_Some (currentLevelUp (rendered h)))
      then {| next := dismissLevelUp (next h);
              rendered := rendered h;
              effectDue := effectDue h |}
      else h
  | Rendered =>
      let h1 := runDueEffect h in
      {| next := next h1; rendered := next h1; effectDue := true |}
  | EffectsRun => runDueEffect h
  end.

(** A schedule; the first component lists what each render showed as the
    current item. *)
Fixpoint schedule (os : list occurrence) (h : mountedHook)
    : list (option LevelUpEvent) * mountedHook :=
  match os with
  | [] => ([], h)
  | o :: r =>
      let h1 := occur o h in
      let '(views, h2) := schedule r h1 in
      (match o with
       | Rendered => currentLevelUp (rendered h1) :: views
       | _ => views
       end, h2)
  end.

(** The events a schedule delivers, in order. *)
Fixpoint delivered (os : list occurrence) : list LevelUpEvent :=
  match os with
  | [] => []
  | Delivered now data :: r => toLevelUpEvent now data :: delivered r
  | _ :: r => delivered r
  end.

End LevelUpState.

(* ===================================================================== *)
(** * LevelUpNotification.tsx                                             *)
(* ===================================================================== *)

Module Notification.
Import Js Utils LevelUpAudio Eff LevelUpState.
Local Open Scope eff_scope.

(** The audio system as the dispatcher sees it:
    [audio.groupGains?.sfx?.gain?.value] and [audio.ready(callback)].  The
    callback is represented by the sound it plays. *)
Record ClientAudio : Type := mkAudio {
  sfx_gain_value : option Q;
  ready : sound -> completion unit
}.

(** The chat system: [chat.add(message, broadcast)]. *)
Record Chat : Type := mkChat {
  add : ChatMessage -> bool -> completion unit
}.

(** What the component reads from its surroundings in one effect run. *)
Record ambient : Type := mkAmbient {
  Date_now : Z;                 (* Date.now() *)
  uuid : string;                (* uuid() *)
  toISOString : Z -> string     (* new Date(now).toISOString() *)
}.

(** [a ?? b] *)
Definition nullish {A} (a b : option A) : option A :=
  match a with Some x => Some x | None => b end.

(** [audioSystem ?? (isClientAudio(world.audio) ? world.audio : undefined)];
    [world_system] is [world.audio] (or [world.chat]) when its type guard
    accepts it. *)
Definition resolve {A} (injected world_system : option A) : option A :=
  nullish injected world_system.

(** Hook state and the [processedRef] cell of one mounted component. *)
Record component : Type := mkComponent {
  hook : LevelUpState.state;
  processedRef : gset Z
}.


(** [x > y] on gains. *)
Definition number_gt (x y : Q) : bool :=
  match (x ?= y)%Q with Gt => true | _ => false end.

(** The template literal of the chat line. *)
Definition messageBody (cur : LevelUpEvent) : string :=
  ("Congratulations! You've advanced a " ++ capitalizeSkill (skill cur)
   ++ " level. You are now level " ++ numberToString (newLevel cur) ++ ".")%string.

(** The AUDIO block of the dispatch effect. *)
Definition audioPart (audio : option ClientAudio) (cur : LevelUpEvent) : M unit :=
  match audio with
  | Some a =>
      let sfxVolume := default 1%Q (sfx_gain_value a) in
      if number_gt sfxVolume 0%Q then
        let played := playLevelUpFanfare (newLevel cur) in
        call (AudioReady played) (ready a played)
      else ret tt
  | None => ret tt
  end.

(** The [ChatMessage] literal built for [cur]. *)
Definition levelUpMessage (amb : ambient) (cur : LevelUpEvent) : ChatMessage :=
  let now := Date_now amb in
  {| id := uuid amb;
     from := "";
     body := messageBody cur;
     text := messageBody cur;
     msg_timestamp := now;
     createdAt := toISOString amb now |}.

(** The CHAT MESSAGE block of the dispatch effect. *)
Definition chatPart (amb : ambient) (chat : option Chat) (cur : LevelUpEvent) : M unit :=
  match chat with
  | Some c =>
      let message := levelUpMessage amb cur in
      call (ChatAdd message false) (add c message false)
  | None => ret tt
  end.

(** The dispatch effect (deps [currentLevelUp, audio, chat]).  The
    timestamp is recorded before any capability is called; nothing in the
    body catches. *)
Definition dispatchEffect (amb : ambient) (audio : option ClientAudio)
    (chat : option Chat) (c : component) : component * M unit :=
  match currentLevelUp (hook c) with
  | None => (c, ret tt)
  | Some cur =>
      if bool_decide (timestamp cur ∈ processedRef c) then (c, ret tt)
      else
        ({| hook := hook c;
            processedRef := {[ timestamp cur ]} ∪ processedRef c |},
         audioPart audio cur ;;; chatPart amb chat cur)
  end.

Definition threshold : Z := 60000.
Definition cleanupInterval : Z := 30000.

(** One tick of the cleanup interval:
    [processedRef.current.forEach((timestamp) => {
       if (now - timestamp > threshold) processedRef.current.delete(timestamp) })] *)
Definition cleanupTick (now : Z) (c : component) : component :=
  {| hook := hook c;
     processedRef := filter (fun t => ¬ (now - t > threshold)) (processedRef c) |}.

(** What the mounted component goes through: a render whose dispatch effect
    runs with some item current (or none), or a cleanup tick. *)
Inductive event : Type :=
| Observe (amb : ambient) (audio : option ClientAudio) (chat : option Chat)
          (cur : option LevelUpEvent)
| Tick (now : Z).

Definition withCurrent (cur : option LevelUpEvent) (c : component) : component :=
  {| hook := {| levelUpQueue := levelUpQueue (hook c); currentLevelUp := cur |};
     processedRef := processedRef c |}.

(** The capability calls of a run, each with the timestamp of the item it
    was made for.  A throwing effect ends its own run only. *)
Fixpoint fired (tr : list event) (c : component) : list (Z * io) :=
  match tr with
  | [] => []
  | Observe amb audio chat cur :: r =>
      let '(c1, m) := dispatchEffect amb audio chat (withCurrent cur c) in
      match cur with
      | Some e => map (fun x => (timestamp e, x)) (calls m)
      | None => []
      end ++ fired r c1
  | Tick now :: r => fired r (cleanupTick now c)
  end.

(** The capability calls of a run made for items with timestamp [ts]. *)
Definition firedFor (ts : Z) (tr : list event) (c : component) : list io :=
  map snd (filter (fun call => fst call = ts) (fired tr c)).

(** Every cleanup tick of the run falls inside the retention window of
    [ts]: not more than [threshold] after it. *)
Fixpoint retained (ts : Z) (tr : list event) : Prop :=
  match tr with
  | [] => True
  | Tick now :: r => now - ts <= threshold /\ retained ts r
  | Observe _ _ _ _ :: r => retained ts r
  end.

(** Projections of a trace on one collaborator. *)
Fixpoint chatAdds (l : list io) : list (ChatMessage * bool) :=
  match l with
  | [] => []
  | ChatAdd m b :: r => (m, b) :: chatAdds r
  | _ :: r => chatAdds r
  end.

Fixpoint audioCalls (l : list io) : list sound :=
  match l with
  | [] => []
  | AudioReady played :: r => played :: audioCalls r
  | _ :: r => audioCalls r
  end.

Fixpoint consoleErrors (l : list io) : list string :=
  match l with
  | [] => []
  | ConsoleError msg :: r => msg :: consoleErrors r
  | _ :: r => consoleErrors r
  end.

(** The audio scheduling call is made for [cur] and throws [err]. *)
Definition audioThrows (audio : option ClientAudio) (cur : LevelUpEvent)
    (err : exn) : Prop :=
  exists a, audio = Some a
    /\ number_gt (default 1%Q (sfx_gain_value a)) 0%Q = true
    /\ ready a (playLevelUpFanfare (newLevel cur)) = Throw err.

(** No audio scheduling call is made for [cur], or it returns. *)
Definition audioReturns (audio : option ClientAudio) (cur : LevelUpEvent) : Prop :=
  forall a, audio = Some a ->
    number_gt (default 1%Q (sfx_gain_value a)) 0%Q = true ->
    ready a (playLevelUpFanfare (newLevel cur)) = Normal tt.

(** The chat append is made for [cur] and throws [err]. *)
Definition chatThrows (amb : ambient) (chat : option Chat) (cur : LevelUpEvent)
    (err : exn) : Prop :=
  exists ch, chat = Some ch /\ add ch (levelUpMessage amb cur) false = Throw err.

(** Sample data: the level-up of the end-to-end scenario and collaborators
    that work or fail. *)
Definition woodcutting10 : LevelUpEvent := mkEvent "woodcutting" 9 10 1000.

Definition showing (cur : LevelUpEvent) : component :=
  mkComponent (mkState [] (Some cur)) ∅.

Definition sampleAmbient : ambient :=
  mkAmbient 1000 "00000000-0000-4000-8000-000000000000"
            (fun _ => "1970-01-01T00:00:01.000Z"%string).

Definition workingAudio (gain : option Q) : ClientAudio :=
  mkAudio gain (fun _ => Normal tt).

Definition failingAudio : ClientAudio :=
  mkAudio None (fun _ => Throw (Error "audio context closed")).

Definition workingChat : Chat := mkChat (fun _ _ => Normal tt).

Definition failingChat : Chat :=
  mkChat (fun _ _ => Throw (Error "chat unavailable")).

End Notification.

(* ===================================================================== *)
(** * Tauri integration module                                            *)
(* ===================================================================== *)

Module Tauri.
Import Js Eff.
Local Open Scope eff_scope.

Record PlatformInfo : Type := mkPlatformInfo {
  os : string;
  arch : string;
  family : string
}.

(** The function returned by [listen]; only its identity matters. *)
Definition unlisten : Type := nat.

Record TauriEvent : Type := mkTauriEvent {
  listen : string -> completion unlisten
}.

Record TauriCore : Type := mkTauriCore {
  invoke : string -> completion PlatformInfo
}.

Record TauriOpener : Type := mkTauriOpener {
  openUrl : string -> completion unit
}.

(** The runtime the module finds itself in: whether [window] exists,
    whether it carries [__TAURI__], and what the dynamic imports of the
    three plugin packages give. *)
Record runtime : Type := mkRuntime {
  window_defined : bool;
  TAURI_in_window : bool;
  import_event : completion TauriEvent;
  import_core : completion TauriCore;
  import_opener : completion TauriOpener
}.

(** [typeof window !== "undefined" && "__TAURI__" in window] *)
Definition isTauriApp (rt : runtime) : bool :=
  window_defined rt && TAURI_in_window rt.

(** The common body of [getTauriEvent], [getTauriCore] and
    [getTauriOpener]: null outside Tauri, else the imported API, or null
    when the import fails. *)
Definition getTauri {A} (rt : runtime) (imported : completion A) : M (option A) :=
  if negb (isTauriApp rt) then ret None
  else try_catch (api <- lift imported ;; ret (Some api)) (fun _ => ret None).

Definition getTauriEvent (rt : runtime) : M (option TauriEvent) :=
  getTauri rt (import_event rt).

Definition getTauriCore (rt : runtime) : M (option TauriCore) :=
  getTauri rt (import_core rt).

Definition getTauriOpener (rt : runtime) : M (option TauriOpener) :=
  getTauri rt (import_opener rt).

Definition getPlatformInfo (rt : runtime) : M (option PlatformInfo) :=
  core <- getTauriCore rt ;;
  match core with
  | None => ret None
  | Some core =>
      try_catch
        (info <- call (CoreInvoke "get_platform_info")
                      (invoke core "get_platform_info") ;;
         ret (Some info))
        (fun _ =>
           call (ConsoleError "[Tauri] Failed to get platform info:") (Normal tt) ;;;
           ret None)
  end.

(** [window.open(url, target)]; naming [window] where there is none is a
    ReferenceError. *)
Definition window_open (rt : runtime) (url target : string) : M unit :=
  if window_defined rt then call (WindowOpen url target) (Normal tt)
  else throw (ReferenceError "window is not defined").

Definition openExternalUrl (rt : runtime) (url : string) : M bool :=
  opener <- getTauriOpener rt ;;
  match opener with
  | None =>
      (* Fallback to window.open for web *)
      window_open rt url "_blank" ;;;
      ret true
  | Some opener =>
      try_catch
        (call (OpenerOpenUrl url) (openUrl opener url) ;;;
         ret true)
        (fun _ =>
           call (ConsoleError "[Tauri] Failed to open URL:") (Normal tt) ;;;
           ret false)
  end.

(** The handler passed to [listen] logs the payload and forwards it to
    [callback]; registering it is the only call made here. *)
Definition onDeepLink (rt : runtime) : M (option unlisten) :=
  event <- getTauriEvent rt ;;
  match event with
  | None => ret None
  | Some event =>
      try_catch
        (un <- call (EventListen "deep-link") (listen event "deep-link") ;;
         ret (Some un))
        (fun _ =>
           call (ConsoleError "[Tauri] Failed to listen for deep links:") (Normal tt) ;;;
           ret None)
  end.

(** A parsed URL, as far as [parseOAuthCallback] looks at it: the list of
    name-value pairs behind [searchParams], in order. *)
Record URL : Type := mkURL {
  searchParams : list (string * string)
}.

(** [searchParams.get(name)]: the value of the first pair called [name],
    [null] when there is none. *)
Fixpoint searchParams_get (params : list (string * string)) (name : string)
    : option string :=
  match params with
  | [] => None
  | (k, v) :: r => if String.eqb k name then Some v else searchParams_get r name
  end.

Record OAuthCallback : Type := mkOAuthCallback {
  code : option string;
  state : option string;
  error : option string
}.

Section WithURLParser.

(** [new URL(url)] of the host: the parsed URL, or a thrown TypeError. *)
Variable new_URL : string -> completion URL.

Definition parseOAuthCallback (url : string) : M OAuthCallback :=
  try_catch
    (parsed <- lift (new_URL url) ;;
     ret {| code := searchParams_get (searchParams parsed) "code";
            state := searchParams_get (searchParams parsed) "state";
            error := searchParams_get (searchParams parsed) "error" |})
    (fun _ =>
       ret {| code := None; state := None; error := Some "Invalid URL"%string |}).

End WithURLParser.

(** A plain browser tab: a window without [__TAURI__]; the plugin
    packages are not there to import. *)
Definition browserTab : runtime :=
  {| window_defined := true;
     TAURI_in_window := false;
     import_event := Throw (TypeError "Failed to resolve module specifier");
     import_core := Throw (TypeError "Failed to resolve module specifier");
     import_opener := Throw (TypeError "Failed to resolve module specifier") |}.

End Tauri.

(* ===================================================================== *)
(** * levelUpAudio.ts: the two fanfares on the Web Audio API              *)
(* ===================================================================== *)

Module Synth.
Import Js.

Inductive wave : Type := Triangle | Sine.

(** Audio nodes: the destination of the context, a gain node handed in by
    the caller (the sfx group gain), and the oscillators and gain nodes the
    context creates, numbered in creation order. *)
Inductive node : Type :=
| CtxDestination
| GroupGain
| OscillatorNode (k : nat)
| GainNode (k : nat).

(** The context: its clock, which stands still during one synchronous call,
    and the number of nodes it has created.  Times, gains and frequencies
    are rationals: the rounding of the source's doubles is not modelled. *)
Record AudioContext : Type := mkAudioContext {
  currentTime : Q;
  created : nat
}.

(** Calls on the context and its nodes. *)
Inductive op : Type :=
| CreateOscillator (o : node)                            (* ctx.createOscillator() *)
| CreateGain (g : node)                                  (* ctx.createGain() *)
| Connect (src dst : node)                               (* src.connect(dst) *)
| SetFrequency (o : node) (value : Q)                    (* o.frequency.value = .. *)
| SetType (o : node) (w : wave)                          (* o.type = .. *)
| SetValueAtTime (g : node) (value time : Q)             (* g.gain.setValueAtTime *)
| LinearRampToValueAtTime (g : node) (value time : Q)
| ExponentialRampToValueAtTime (g : node) (value time : Q)
| Start (o : node) (time : Q)                            (* o.start(time) *)
| Stop (o : node) (time : Q).                            (* o.stop(time) *)

(** [destination || ctx.destination] *)
Definition outputOf (destination : option node) : node :=
  match destination with Some d => d | None => CtxDestination end.

(** The calls one pass of either [forEach] body makes for a note, from the
    creation of its oscillator to its [stop]; [n] is the number of nodes
    created before. *)
Definition playNote (output : node) (waveType : wave) (peak freq : Q)
    (startTime endTime : Q) (n : nat) : list op * nat :=
  let oscillator := OscillatorNode n in
  let gainNode := GainNode (S n) in
  ([ CreateOscillator oscillator;
     CreateGain gainNode;
     Connect oscillator gainNode;
     Connect gainNode output;
     SetFrequency oscillator freq;
     SetType oscillator waveType;
     SetValueAtTime gainNode 0%Q startTime;
     LinearRampToValueAtTime gainNode peak (startTime + 0.02)%Q;
     ExponentialRampToValueAtTime gainNode 0.01%Q endTime;
     Start oscillator startTime;
     Stop oscillator endTime ],
   S (S n)).

(** [xs.forEach((x, i) => body)], the index starting at [i]. *)
Fixpoint forEach {A} (body : A -> nat -> nat -> list op * nat)
    (xs : list A) (i : nat) (n : nat) : list op * nat :=
  match xs with
  | [] => ([], n)
  | x :: r =>
      let '(l1, n1) := body x i n in
      let '(l2, n2) := forEach body r (S i) n1 in
      (l1 ++ l2, n2)
  end.

Definition indexQ (i : nat) : Q := inject_Z (Z.of_nat i).

Definition playLevelUpSound (ctx : AudioContext) (destination : option node)
    : list op * AudioContext :=
  let output := outputOf destination in
  let notes := [523.25; 659.25; 783.99; 1046.5]%Q in
  let noteDuration := 0.12%Q in
  let noteGap := 0.08%Q in
  let '(ops, n) :=
    forEach
      (fun freq i n =>
         let startTime := (currentTime ctx + indexQ i * (noteDuration + noteGap))%Q in
         let endTime := (startTime + noteDuration * 2)%Q in
         playNote output Triangle 0.3%Q freq startTime endTime n)
      notes 0%nat (created ctx) in
  (ops, mkAudioContext (currentTime ctx) n).

Definition playMilestoneLevelUpSound (ctx : AudioContext) (destination : option node)
    : list op * AudioContext :=
  let output := outputOf destination in
  let melody := [523.25; 659.25; 783.99; 1046.5; 1318.51; 1046.5]%Q in
  let harmony := [261.63; 329.63; 392.0; 523.25; 659.25; 523.25]%Q in
  let voices := [ (melody, Triangle, 0.25%Q); (harmony, Sine, 0.15%Q) ] in
  let '(ops, n) :=
    forEach
      (fun (voice : list Q * wave * Q) (_ : nat) n =>
         let '(notes, waveType, volume) := voice in
         forEach
           (fun freq i n =>
              let startTime := (currentTime ctx + indexQ i * 0.15)%Q in
              let endTime := (startTime + 0.5)%Q in
              playNote output waveType volume freq startTime endTime n)
           notes 0%nat n)
      voices 0%nat (created ctx) in
  (ops, mkAudioContext (currentTime ctx) n).

Definition playLevelUpFanfare (level : Z) (ctx : AudioContext) (sfxGain : option node)
    : list op * AudioContext :=
  if LevelUpAudio.isMilestoneLevel level
  then playMilestoneLevelUpSound ctx sfxGain
  else playLevelUpSound ctx sfxGain.

(** Projections of a list of calls. *)
Fixpoint oscillators (l : list op) : list node :=
  match l with
  | [] => []
  | CreateOscillator o :: r => o :: oscillators r
  | _ :: r => oscillators r
  end.

Fixpoint gains (l : list op) : list node :=
  match l with
  | [] => []
  | CreateGain g :: r => g :: gains r
  | _ :: r => gains r
  end.

(** The gain node created right after an oscillator. *)
Definition gainOf (o : node) : node :=
  match o with
  | OscillatorNode k => GainNode (S k)
  | _ => o
  end.

Fixpoint connections (l : list op) : list (node * node) :=
  match l with
  | [] => []
  | Connect src dst :: r => (src, dst) :: connections r
  | _ :: r => connections r
  end.

Fixpoint starts (l : list op) : list (node * Q) :=
  match l with
  | [] => []
  | Start o t :: r => (o, t) :: starts r
  | _ :: r => starts r
  end.

Fixpoint stops (l : list op) : list (node * Q) :=
  match l with
  | [] => []
  | Stop o t :: r => (o, t) :: stops r
  | _ :: r => stops r
  end.

(** Every time a call schedules something at. *)
Fixpoint times (l : list op) : list Q :=
  match l with
  | [] => []
  | SetValueAtTime _ _ t :: r => t :: times r
  | LinearRampToValueAtTime _ _ t :: r => t :: times r
  | ExponentialRampToValueAtTime _ _ t :: r => t :: times r
  | Start _ t :: r => t :: times r
  | Stop _ t :: r => t :: times r
  | _ :: r => times r
  end.

(** A connection made by a fanfare that plays into [output]: an oscillator
    into the gain node created right after it, or a gain node into
    [output]. *)
Definition routed (output : node) (c : node * node) : Prop :=
  match fst c with
  | OscillatorNode k => snd c = GainNode (S k)
  | GainNode _ => snd c = output
  | _ => False
  end.

End Synth.

(* ===================================================================== *)
(** * utils.ts: the type guards                                           *)
(* ===================================================================== *)

Module Guards.
Import Js.

(** Values of type [unknown], as far as the guards look into them.  An
    object is given by the properties the [in] operator finds on it, own or
    inherited, with their values, and by whether [AudioContext.prototype]
    is on its prototype chain; an array is an object. *)
#[local] Unset Elimination Schemes.
Inductive value : Type :=
| VUndefined
| VNull
| VBoolean (b : bool)
| VNumber (n : Z)
| VString (s : string)
| VFunction
| VObject (isAudioContext : bool) (props : list (string * value)).
#[local] Set Elimination Schemes.

(** [typeof v] *)
Definition typeof (v : value) : string :=
  match v with
  | VUndefined => "undefined"
  | VNull => "object"
  | VBoolean _ => "boolean"
  | VNumber _ => "number"
  | VString _ => "string"
  | VFunction => "function"
  | VObject _ _ => "object"
  end.

(** [key in obj] *)
Fixpoint has (props : list (string * value)) (key : string) : bool :=
  match props with
  | [] => false
  | (k, _) :: r => String.eqb k key || has r key
  end.

(** [obj[key]]: [undefined] for a property that is not there. *)
Fixpoint get (props : list (string * value)) (key : string) : value :=
  match props with
  | [] => VUndefined
  | (k, v) :: r => if String.eqb k key then v else get r key
  end.

(** [v instanceof AudioContext]: [false] on a primitive; evaluating the
    name [AudioContext] where the runtime has none is a ReferenceError. *)
Definition instanceofAudioContext (hasAudioContext : bool) (v : value)
    : completion bool :=
  if hasAudioContext then
    Normal match v with VObject isCtx _ => isCtx | _ => false end
  else Throw (ReferenceError "AudioContext is not defined").

(** [a && b], [b] evaluated only when [a] is true. *)
Definition and_then (a : completion bool) (b : completion bool) : completion bool :=
  match a with
  | Normal true => b
  | Normal false => Normal false
  | Throw e => Throw e
  end.

Definition isClientAudio (hasAudioContext : bool) (obj : value) : completion bool :=
  match obj with
  | VObject _ audio =>
      and_then (Normal (has audio "ctx"))
     (and_then (instanceofAudioContext hasAudioContext (get audio "ctx"))
     (and_then (Normal (has audio "groupGains"))
     (and_then (Normal (String.eqb (typeof (get audio "groupGains")) "object"))
     (and_then (Normal (has audio "ready"))
               (Normal (String.eqb (typeof (get audio "ready")) "function"))))))
  | _ => Normal false
  end.

Definition isChat (obj : value) : bool :=
  match obj with
  | VObject _ chat =>
      has chat "add" && String.eqb (typeof (get chat "add")) "function"
  | _ => false
  end.

(** Whether a value is a non-null object. *)
Definition isObject (v : value) : bool :=
  match v with VObject _ _ => true | _ => false end.

End Guards.

(* ===================================================================== *)
(** * The mounted component: hook, dispatcher and a dismissing consumer   *)
(* ===================================================================== *)

Module Pipeline.
Import Js Eff LevelUpState Notification.
Local Open Scope eff_scope.







End Pipeline.

(* ===================================================================== *)
(** * Sample data                                                         *)
(* ===================================================================== *)

Module Samples.
Import Js Eff LevelUpState Notification Tauri.

Definition fishing5 : LevelUpEvent := mkEvent "fishing" 4 5 2000.

Definition woodcuttingData : SkillsLevelUpEvent := mkData "woodcutting" 9 10 (Some 1000).
Definition fishingData : SkillsLevelUpEvent := mkData "fishing" 4 5 (Some 2000).

(** Two level-ups, the second delivered between a render and the queue
    effect of that render; the popup is then dismissed, and the hook is
    rendered until nothing changes. *)
Definition raceSchedule : list occurrence :=
  [ Delivered 1 woodcuttingData; Rendered;
    Delivered 2 fishingData; EffectsRun;
    Rendered; EffectsRun;
    Clicked; Rendered; EffectsRun; Rendered ].

(** The same deliveries, the effect of the first render run before the
    second delivery. *)
Definition settledSchedule : list occurrence :=
  [ Delivered 1 woodcuttingData; Rendered; EffectsRun;
    Delivered 2 fishingData; Rendered; EffectsRun;
    Clicked; Rendered; EffectsRun; Rendered ].

(** A URL parser for the examples: two callback URLs parse. *)
Definition sampleParser (url : string) : completion URL :=
  if String.eqb url "hyperscape://oauth?code=abc&state=xyz"
  then Normal (mkURL [("code", "abc"); ("state", "xyz")]%string)
  else if String.eqb url "hyperscape://oauth?error=Invalid%20URL"
  then Normal (mkURL [("error", "Invalid URL")]%string)
  else Throw (TypeError "Invalid URL").

End Samples.

(* ===================================================================== *)
(** * Properties                                                          *)
(* ===================================================================== *)

(** ** Milestone classification *)

Section Milestones.
Import Js LevelUpAudio.

Lemma includes_elem_of (xs : list Z) (x : Z) :
  includes xs x = true <-> x ∈ xs.
Proof.
  induction xs as [|y r IH]; simpl.
  - split; [discriminate | intros H; inversion H].
  - rewrite orb_true_iff, IH, Z.eqb_eq, elem_of_cons. intuition congruence.
Qed.

(** C5. [isMilestoneLevel level] is [true] exactly for the levels 10, 25,
    50, 75 and 99, for every integer [level]; it is [false] in particular
    at 0, at negative levels and above 99 (at 100). *)
Theorem isMilestoneLevel_exactly_the_five (level : Z) :
  (isMilestoneLevel level = true
     <-> level = 10 \/ level = 25 \/ level = 50 \/ level = 75 \/ level = 99)
  /\ (isMilestoneLevel level = false
     <-> level <> 10 /\ level <> 25 /\ level <> 50 /\ level <> 75 /\ level <> 99)
  /\ isMilestoneLevel 0 = false
  /\ isMilestoneLevel (-1) = false
  /\ isMilestoneLevel (-10) = false
  /\ isMilestoneLevel 100 = false.
Proof.
  assert (Hiff : isMilestoneLevel level = true
     <-> level = 10 \/ level = 25 \/ level = 50 \/ level = 75 \/ level = 99).
  { unfold isMilestoneLevel, MILESTONE_LEVELS.
    rewrite includes_elem_of, !elem_of_cons, elem_of_nil. intuition. }
  split; [exact Hiff|].
  split; [|repeat split; reflexivity].
  rewrite <- not_true_iff_false, Hiff. lia.
Qed.

End Milestones.

(** ** Skill-name formatting *)

Section Formatting.
Import Js Utils.

Ltac by_cases_on_char c :=
  destruct c as [[] [] [] [] [] [] [] []]; vm_compute; reflexivity.

Lemma white_space_lower_char (c : ascii) :
  is_white_space (lower_char c) = is_white_space c.
Proof. by_cases_on_char c. Qed.

Lemma upper_lower_char (c : ascii) : upper_char (lower_char c) = upper_char c.
Proof. by_cases_on_char c. Qed.

Lemma lower_lower_char (c : ascii) : lower_char (lower_char c) = lower_char c.
Proof. by_cases_on_char c. Qed.

Lemma replace_white_space_lower (s : string) :
  replace_white_space (toLowerCase s) = toLowerCase (replace_white_space s).
Proof.
  unfold toLowerCase.
  induction s as [|c r IH]; simpl; [reflexivity|].
  rewrite white_space_lower_char.
  destruct (is_white_space c); simpl; rewrite IH; reflexivity.
Qed.

(** *** On UTF-16 strings *)

Ltac by_cases_on_unit :=
  repeat (match goal with
          | |- context [N.leb ?a ?b] =>
              is_var a; destruct (N.leb_spec a b)
          | |- context [N.leb ?a ?b] =>
              is_var b; destruct (N.leb_spec a b)
          | |- context [N.eqb ?a ?b] =>
              is_var a; destruct (N.eqb_spec a b)
          | |- context [N.leb ?a ?b] => destruct (N.leb_spec a b)
          | |- context [N.eqb ?a ?b] => destruct (N.eqb_spec a b)
          end; cbn [andb orb negb]);
  try reflexivity; try lia.

Lemma lowerAscii_ascii (c : N) : (c < 128)%N -> (Utf16.lowerAscii c < 128)%N.
Proof. unfold Utf16.lowerAscii. by_cases_on_unit. Qed.

Lemma whiteAscii_lowerAscii (c : N) :
  Utf16.whiteAscii (Utf16.lowerAscii c) = Utf16.whiteAscii c.
Proof. unfold Utf16.whiteAscii, Utf16.lowerAscii. by_cases_on_unit. Qed.

Lemma upperAscii_lowerAscii (c : N) :
  Utf16.upperAscii (Utf16.lowerAscii c) = Utf16.upperAscii c.
Proof. unfold Utf16.upperAscii, Utf16.lowerAscii. by_cases_on_unit. Qed.

Lemma lowerAscii_twice (c : N) :
  Utf16.lowerAscii (Utf16.lowerAscii c) = Utf16.lowerAscii c.
Proof. unfold Utf16.lowerAscii. by_cases_on_unit. Qed.

Lemma toLowerCase_ascii (s : list N) :
  Forall (fun c => (c < 128)%N) s ->
  Utf16.toLowerCase s = Some (map Utf16.lowerAscii s).
Proof.
  induction 1 as [|c r Hc _ IH]; [reflexivity|].
  cbn [Utf16.toLowerCase map]. rewrite IH. unfold Utf16.lowerCaseOf, Utf16.isAsciiUnit.
  rewrite (proj2 (N.ltb_lt c 128) Hc). reflexivity.
Qed.

Lemma toUpperCase_ascii (s : list N) :
  Forall (fun c => (c < 128)%N) s ->
  Utf16.toUpperCase s = Some (map Utf16.upperAscii s).
Proof.
  induction 1 as [|c r Hc _ IH]; [reflexivity|].
  cbn [Utf16.toUpperCase map]. rewrite IH. unfold Utf16.upperCaseOf, Utf16.isAsciiUnit.
  rewrite (proj2 (N.ltb_lt c 128) Hc). reflexivity.
Qed.

(** What is left of [s] when its white space is taken out. *)
Lemma replaceWhiteSpace_ascii (s : list N) :
  Forall (fun c => (c < 128)%N) s ->
  exists t, Utf16.replaceWhiteSpace s = Some t
    /\ Forall (fun c => (c < 128)%N) t
    /\ Utf16.replaceWhiteSpace (map Utf16.lowerAscii s) = Some (map Utf16.lowerAscii t).
Proof.
  induction 1 as [|c r Hc Hr (t & Ht & Hascii & Hlow)].
  - exists []. repeat split. constructor.
  - cbn [Utf16.replaceWhiteSpace map]. rewrite Ht, Hlow.
    unfold Utf16.whiteSpaceOf, Utf16.isAsciiUnit.
    rewrite (proj2 (N.ltb_lt c 128) Hc).
    rewrite (proj2 (N.ltb_lt _ 128) (lowerAscii_ascii c Hc)).
    rewrite whiteAscii_lowerAscii.
    destruct (Utf16.whiteAscii c).
    + exists t. split; [reflexivity|]. split; [exact Hascii | reflexivity].
    + exists (c :: t). split; [reflexivity|].
      split; [constructor; assumption | reflexivity].
Qed.

(** C6, amended.  For every string [s] of ASCII characters,
    [capitalizeSkill (normalizeSkillName s)] is defined and is [s] without
    its white space, the first remaining character in upper case and all
    the others in lower case; on "Hit Points" it is "Hitpoints". *)
Theorem capitalize_normalize_format (s : list N) :
  Forall (fun c => (c < 128)%N) s ->
  Utf16.formatSkill s = Utf16.spec_single_capitalized s
  /\ is_Some (Utf16.formatSkill s)
  /\ Utf16.formatSkill (Utf16.codeUnits "Hit Points")
     = Some (Utf16.codeUnits "Hitpoints").
Proof.
  intros Hs. split; [|split; [|reflexivity]].
  - unfold Utf16.formatSkill, Utf16.normalizeSkillName, Utf16.spec_single_capitalized.
    rewrite (toLowerCase_ascii s Hs).
    destruct (replaceWhiteSpace_ascii s Hs) as (t & -> & Ht & ->).
    destruct t as [|c r]; [reflexivity|].
    inversion Ht as [|? ? Hc Hr]; subst.
    unfold Utf16.capitalizeSkill, Utf16.charAt, Utf16.slice.
    cbn [map lookup list_lookup drop Utf16.toUpperCase].
    unfold Utf16.upperCaseOf, Utf16.isAsciiUnit.
    rewrite (proj2 (N.ltb_lt _ 128) (lowerAscii_ascii c Hc)).
    rewrite (proj2 (N.ltb_lt c 128) Hc).
    rewrite upperAscii_lowerAscii.
    assert (Hlow : Forall (fun c => (c < 128)%N) (map Utf16.lowerAscii r)).
    { apply Forall_fmap. eapply Forall_impl; [exact Hr|]. apply lowerAscii_ascii. }
    change (drop 0 (map Utf16.lowerAscii r)) with (map Utf16.lowerAscii r).
    rewrite (toLowerCase_ascii _ Hlow), (toLowerCase_ascii r Hr).
    rewrite map_map. cbn [app].
    do 2 f_equal. apply map_ext. intros x. apply lowerAscii_twice.
  - unfold Utf16.formatSkill, Utf16.normalizeSkillName.
    rewrite (toLowerCase_ascii s Hs).
    destruct (replaceWhiteSpace_ascii s Hs) as (t & _ & Ht & ->).
    destruct t as [|c r]; [eexists; reflexivity|].
    inversion Ht as [|? ? Hc Hr]; subst.
    unfold Utf16.capitalizeSkill, Utf16.charAt, Utf16.slice.
    cbn [map lookup list_lookup drop Utf16.toUpperCase].
    unfold Utf16.upperCaseOf, Utf16.isAsciiUnit.
    rewrite (proj2 (N.ltb_lt _ 128) (lowerAscii_ascii c Hc)).
    assert (Hlow : Forall (fun c => (c < 128)%N) (map Utf16.lowerAscii r)).
    { apply Forall_fmap. eapply Forall_impl; [exact Hr|]. apply lowerAscii_ascii. }
    change (drop 0 (map Utf16.lowerAscii r)) with (map Utf16.lowerAscii r).
    rewrite (toLowerCase_ascii _ Hlow). eexists; reflexivity.
Qed.

(** Witness of C6, amended: "Hit Points". *)
Lemma capitalize_normalize_format_witness :
  Utf16.formatSkill (Utf16.codeUnits "Hit Points")
    = Utf16.spec_single_capitalized (Utf16.codeUnits "Hit Points")
  /\ is_Some (Utf16.formatSkill (Utf16.codeUnits "Hit Points"))
  /\ Utf16.formatSkill (Utf16.codeUnits "Hit Points")
     = Some (Utf16.codeUnits "Hitpoints").
Proof.
  apply (capitalize_normalize_format (Utf16.codeUnits "Hit Points")).
  repeat constructor.
Defined.

(** Counterexample to C6 as stated: the one-character string of the Kelvin
    sign, U+212A.  It has no white space and its upper case is itself, so
    the format the claim describes is the string itself; the code lowers it
    to "k" first and returns "K", U+004B. *)
Lemma kelvin_sign_is_replaced :
  Utf16.formatSkill [Utf16.KELVIN_SIGN] = Some [75%N]
  /\ Utf16.spec_single_capitalized [Utf16.KELVIN_SIGN] = Some [Utf16.KELVIN_SIGN]
  /\ Utf16.formatSkill [Utf16.KELVIN_SIGN]
     <> Utf16.spec_single_capitalized [Utf16.KELVIN_SIGN].
Proof. vm_compute. repeat split; congruence. Qed.

End Formatting.

(** ** The queue and its dismissal *)

Section Queue.
Import LevelUpState.

Lemma processQueue_current (q : list LevelUpEvent) (e : LevelUpEvent) :
  processQueue (mkState q (Some e)) = mkState q (Some e).
Proof. reflexivity. Qed.

Lemma processQueue_idle_nil : processQueue (mkState [] None) = mkState [] None.
Proof. reflexivity. Qed.

Lemma processQueue_idle_cons (e : LevelUpEvent) (q : list LevelUpEvent) :
  processQueue (mkState (e :: q) None) = mkState q (Some e).
Proof. reflexivity. Qed.

Lemma processQueue_contents (s : state) : contents (processQueue s) = contents s.
Proof. destruct s as [[|e q] [cur|]]; reflexivity. Qed.

(** The effect is stable: once it has run, running it again does nothing. *)
Lemma processQueue_idempotent (s : state) :
  processQueue (processQueue s) = processQueue s.
Proof. destruct s as [[|e q] [cur|]]; reflexivity. Qed.

Lemma consume_idle (n : nat) :
  forall q : list LevelUpEvent, (length q <= n)%nat -> consume n (mkState q None) = q.
Proof.
  induction n as [|n IH]; intros q Hlen.
  - destruct q; [reflexivity | simpl in Hlen; lia].
  - destruct q as [|e q]; [reflexivity|].
    cbn [consume]. rewrite processQueue_idle_cons. simpl.
    f_equal. apply IH. simpl in Hlen. lia.
Qed.

Lemma drain_contents (s : state) : drain s = contents s.
Proof.
  destruct s as [q [e|]]; unfold drain, contents; cbn [levelUpQueue currentLevelUp].
  - cbn [consume]. rewrite processQueue_current. simpl.
    f_equal. apply consume_idle. lia.
  - change (option_list None ++ q) with q. apply consume_idle. lia.
Qed.

Lemma step_contents (a : action) (s : state) :
  fst (step a s) ++ contents (snd (step a s)) = contents s ++ arrivals [a].
Proof.
  destruct a as [now data| |]; simpl.
  - unfold contents. simpl. rewrite app_assoc. reflexivity.
  - unfold contents. simpl. rewrite app_nil_r. reflexivity.
  - rewrite processQueue_contents, app_nil_r. reflexivity.
Qed.

Lemma arrivals_cons (a : action) (tr : list action) :
  arrivals (a :: tr) = arrivals [a] ++ arrivals tr.
Proof. destruct a; reflexivity. Qed.

Lemma exec_contents (tr : list action) :
  forall s : state,
    fst (exec tr s) ++ contents (snd (exec tr s)) = contents s ++ arrivals tr.
Proof.
  induction tr as [|a tr IH]; intros s.
  - simpl. rewrite app_nil_r. reflexivity.
  - rewrite (arrivals_cons a tr).
    cbn [exec]. pose proof (step_contents a s) as Hstep.
    destruct (step a s) as [shown s1]. specialize (IH s1).
    destruct (exec tr s1) as [more s2]. cbn [fst snd] in *.
    rewrite <- app_assoc, IH, app_assoc, Hstep, <- app_assoc.
    reflexivity.
Qed.

Lemma exec_enqueueAll (arrived : list (Z * SkillsLevelUpEvent)) :
  forall s : state, fst (exec (enqueueAll arrived) s) = [].
Proof.
  induction arrived as [|[now data] r IH]; intros s; [reflexivity|].
  cbn [enqueueAll map exec step fst snd].
  specialize (IH (handleLevelUp now data s)).
  destruct (exec _ _) as [more s2]. exact IH.
Qed.

Lemma arrivals_enqueueAll (arrived : list (Z * SkillsLevelUpEvent)) :
  arrivals (enqueueAll arrived)
  = map (fun a => toLevelUpEvent (fst a) (snd a)) arrived.
Proof.
  induction arrived as [|[now data] r IH]; [reflexivity|].
  simpl. f_equal. exact IH.
Qed.

(** X23. FIFO order when every queue effect runs right after its render,
    before anything else is delivered.  Whatever the interleaving of
    arrivals, dismissals and such runs of the effect, the items the consumer
    has read and dismissed, followed by those it reads and dismisses when it
    goes on until nothing is current, are the enqueued events in the order
    of their arrival; in particular, after a run of arrivals alone the
    consumer gets them back in that order. *)
Theorem settled_queue_is_fifo (tr : list action)
    (arrived : list (Z * SkillsLevelUpEvent)) :
  fst (exec tr initial) ++ drain (snd (exec tr initial)) = arrivals tr
  /\ drain (snd (exec (enqueueAll arrived) initial))
     = map (fun a => toLevelUpEvent (fst a) (snd a)) arrived.
Proof.
  split.
  - rewrite drain_contents. apply (exec_contents tr initial).
  - rewrite drain_contents.
    pose proof (exec_contents (enqueueAll arrived) initial) as H.
    rewrite exec_enqueueAll, arrivals_enqueueAll in H. exact H.
Qed.

(** C1. The code at a schedule that breaks FIFO delivery.  The woodcutting
    level-up is delivered and rendered; the fishing level-up is delivered
    before the queue effect of that render has run.  The effect then makes
    the woodcutting level-up current and writes the tail of the queue it
    captured, the empty queue, over the queue that holds the fishing
    level-up.  The renders show the woodcutting level-up and, once it is
    dismissed, nothing: two events were enqueued and one is shown.  With the
    effect run before the second delivery, both are shown in order. *)
Theorem arrival_before_the_effect_is_lost :
  delivered Samples.raceSchedule
    = [Notification.woodcutting10; Samples.fishing5]
  /\ next (snd (schedule (take 4 Samples.raceSchedule) freshMount))
     = mkState [] (Some Notification.woodcutting10)
  /\ fst (schedule Samples.raceSchedule freshMount)
     = [None; Some Notification.woodcutting10; None; None]
  /\ next (snd (schedule Samples.raceSchedule freshMount)) = initial
  /\ delivered Samples.settledSchedule = delivered Samples.raceSchedule
  /\ fst (schedule Samples.settledSchedule freshMount)
     = [None; Some Notification.woodcutting10; None; Some Samples.fishing5].
Proof. repeat split; reflexivity. Qed.

(** C4. [dismissLevelUp] sets the current item to none and leaves the queue
    alone, in every state; in a state where nothing is current it changes
    nothing, and with an empty queue the promotion effect that follows has
    nothing to promote. *)
Theorem dismiss_clears_unconditionally (s : state) (q : list LevelUpEvent) :
  currentLevelUp (dismissLevelUp s) = None
  /\ levelUpQueue (dismissLevelUp s) = levelUpQueue s
  /\ dismissLevelUp (mkState q None) = mkState q None
  /\ processQueue (dismissLevelUp (mkState [] None)) = mkState [] None
  /\ currentLevelUp (processQueue (dismissLevelUp (mkState [] (currentLevelUp s)))) = None.
Proof. repeat split; reflexivity. Qed.

End Queue.

(** ** The fire-once dispatcher *)

Section Dispatcher.
Import Js Utils LevelUpAudio Eff LevelUpState Notification.

Lemma number_gt_true (x y : Q) : number_gt x y = true <-> (y < x)%Q.
Proof.
  unfold number_gt. rewrite (Qgt_alt x y).
  destruct (x ?= y)%Q; split; congruence.
Qed.

Lemma number_gt_false (x y : Q) : number_gt x y = false <-> (x <= y)%Q.
Proof.
  unfold number_gt. rewrite (Qle_alt x y).
  destruct (x ?= y)%Q; split; congruence.
Qed.

(** *** Shape of one run *)

Lemma dispatchEffect_idle amb audio chat (c : component) :
  currentLevelUp (hook c) = None ->
  dispatchEffect amb audio chat c = (c, ret tt).
Proof. unfold dispatchEffect. intros ->. reflexivity. Qed.

Lemma dispatchEffect_seen amb audio chat (c : component) (e : LevelUpEvent) :
  currentLevelUp (hook c) = Some e ->
  timestamp e ∈ processedRef c ->
  dispatchEffect amb audio chat c = (c, ret tt).
Proof.
  unfold dispatchEffect. intros -> Hin.
  rewrite bool_decide_eq_true_2 by exact Hin. reflexivity.
Qed.

Lemma dispatchEffect_new amb audio chat (c : component) (e : LevelUpEvent) :
  currentLevelUp (hook c) = Some e ->
  timestamp e ∉ processedRef c ->
  dispatchEffect amb audio chat c =
    (mkComponent (hook c) ({[ timestamp e ]} ∪ processedRef c),
     bind (audioPart audio e) (fun _ => chatPart amb chat e)).
Proof.
  unfold dispatchEffect. intros -> Hnotin.
  rewrite bool_decide_eq_false_2 by exact Hnotin. reflexivity.
Qed.

Lemma dispatchEffect_hook amb audio chat (c : component) :
  hook (fst (dispatchEffect amb audio chat c)) = hook c.
Proof.
  unfold dispatchEffect.
  destruct (currentLevelUp (hook c)); [|reflexivity].
  destruct (bool_decide _); reflexivity.
Qed.

Lemma dispatchEffect_grows amb audio chat (c : component) :
  processedRef c ⊆ processedRef (fst (dispatchEffect amb audio chat c)).
Proof.
  unfold dispatchEffect.
  destruct (currentLevelUp (hook c)); [|reflexivity].
  destruct (bool_decide _); simpl; set_solver.
Qed.

Lemma dispatchEffect_records amb audio chat (c : component) (e : LevelUpEvent) :
  currentLevelUp (hook c) = Some e ->
  timestamp e ∈ processedRef (fst (dispatchEffect amb audio chat c)).
Proof.
  intros Hcur.
  destruct (decide (timestamp e ∈ processedRef c)) as [Hin|Hnotin].
  - rewrite (dispatchEffect_seen _ _ _ _ _ Hcur Hin). exact Hin.
  - rewrite (dispatchEffect_new _ _ _ _ _ Hcur Hnotin). simpl. set_solver.
Qed.

Lemma cleanupTick_keeps (now ts : Z) (c : component) :
  now - ts <= threshold ->
  ts ∈ processedRef c ->
  ts ∈ processedRef (cleanupTick now c).
Proof.
  intros Hwin Hin. unfold cleanupTick. simpl.
  apply elem_of_filter. split; [lia | exact Hin].
Qed.

Lemma cleanupTick_purges (now ts : Z) (c : component) :
  now - ts > threshold -> ts ∉ processedRef (cleanupTick now c).
Proof.
  intros Hold. unfold cleanupTick. simpl.
  rewrite elem_of_filter. tauto.
Qed.

(** *** The parts *)

Lemma audioPart_calls (audio : option ClientAudio) (e : LevelUpEvent) :
  chatAdds (calls (audioPart audio e)) = []
  /\ consoleErrors (calls (audioPart audio e)) = [].
Proof.
  unfold audioPart. destruct audio as [a|]; [|split; reflexivity].
  destruct (number_gt _ _); split; reflexivity.
Qed.

Lemma chatPart_calls amb (chat : option Chat) (e : LevelUpEvent) :
  audioCalls (calls (chatPart amb chat e)) = []
  /\ consoleErrors (calls (chatPart amb chat e)) = [].
Proof. unfold chatPart. destruct chat; split; reflexivity. Qed.

Lemma audioPart_throws (audio : option ClientAudio) (e : LevelUpEvent) (err : exn) :
  audioThrows audio e err -> outcome (audioPart audio e) = Throw err.
Proof.
  intros (a & -> & Hgain & Hready). unfold audioPart.
  rewrite Hgain. exact Hready.
Qed.

Lemma audioPart_returns (audio : option ClientAudio) (e : LevelUpEvent) :
  audioReturns audio e -> outcome (audioPart audio e) = Normal tt.
Proof.
  intros Hret. unfold audioPart. destruct audio as [a|]; [|reflexivity].
  specialize (Hret a eq_refl).
  destruct (number_gt _ _); [apply Hret|]; reflexivity.
Qed.

Lemma chatAdds_app (l1 l2 : list io) : chatAdds (l1 ++ l2) = chatAdds l1 ++ chatAdds l2.
Proof.
  induction l1 as [|x r IH]; [reflexivity|].
  destruct x; simpl; rewrite ?IH; reflexivity.
Qed.

Lemma audioCalls_app (l1 l2 : list io) :
  audioCalls (l1 ++ l2) = audioCalls l1 ++ audioCalls l2.
Proof.
  induction l1 as [|x r IH]; [reflexivity|].
  destruct x; simpl; rewrite ?IH; reflexivity.
Qed.

Lemma consoleErrors_app (l1 l2 : list io) :
  consoleErrors (l1 ++ l2) = consoleErrors l1 ++ consoleErrors l2.
Proof.
  induction l1 as [|x r IH]; [reflexivity|].
  destruct x; simpl; rewrite ?IH; reflexivity.
Qed.

Lemma calls_bind {A B} (m : M A) (k : A -> M B) :
  calls (bind m k) =
  calls m ++ match outcome m with Normal a => calls (k a) | Throw _ => [] end.
Proof.
  destruct m as [l [a|err]]; simpl.
  - destruct (k a); reflexivity.
  - rewrite app_nil_r. reflexivity.
Qed.

Lemma outcome_bind {A B} (m : M A) (k : A -> M B) :
  outcome (bind m k) =
  match outcome m with Normal a => outcome (k a) | Throw err => Throw err end.
Proof.
  destruct m as [l [a|err]]; simpl; [|reflexivity].
  destruct (k a); reflexivity.
Qed.

(** *** At most once *)

Lemma fired_silent_while_retained (ts : Z) (tr : list event) :
  forall c : component,
    ts ∈ processedRef c ->
    retained ts tr ->
    forall x : io, (ts, x) ∉ fired tr c.
Proof.
  induction tr as [|ev tr IH]; intros c Hin Hret x.
  - simpl. apply not_elem_of_nil.
  - destruct ev as [amb audio chat cur|now].
    + cbn [fired retained] in *.
      pose proof (dispatchEffect_grows amb audio chat (withCurrent cur c)) as Hgrow.
      destruct cur as [e|].
      * destruct (decide (timestamp e = ts)) as [Heq|Hne].
        -- assert (Hseen : timestamp e ∈ processedRef (withCurrent (Some e) c))
             by (rewrite Heq; exact Hin).
           rewrite (dispatchEffect_seen amb audio chat (withCurrent (Some e) c) e
                      eq_refl Hseen).
           simpl. apply IH; [exact Hin | exact Hret].
        -- destruct (dispatchEffect amb audio chat (withCurrent (Some e) c))
             as [c1 m] eqn:Hrun.
           rewrite not_elem_of_app. split.
           ++ rewrite list_elem_of_fmap. intros (y & Hy & _).
              inversion Hy. congruence.
           ++ apply IH; [|exact Hret]. apply Hgrow. exact Hin.
      * rewrite (dispatchEffect_idle amb audio chat (withCurrent None c) eq_refl).
        simpl. apply IH; [exact Hin | exact Hret].
    + cbn [fired retained] in *. destruct Hret as [Hwin Hret].
      apply IH; [|exact Hret]. apply cleanupTick_keeps; assumption.
Qed.

(** C2. At most once.  Once the dispatch effect has run for a current item
    (which records the item's timestamp), no later run makes an audio or
    chat call for an item with that timestamp, however often the item is
    observed again and whatever else is observed in between, as long as
    every cleanup tick falls within the retention window of the
    timestamp. *)
Theorem dispatch_at_most_once amb audio chat (c : component)
    (e : LevelUpEvent) (tr : list event) :
  currentLevelUp (hook c) = Some e ->
  retained (timestamp e) tr ->
  firedFor (timestamp e) tr (fst (dispatchEffect amb audio chat c)) = [].
Proof.
  intros Hcur Hret. unfold firedFor.
  assert (Hnone : forall x : io,
            (timestamp e, x) ∉ fired tr (fst (dispatchEffect amb audio chat c))).
  { apply fired_silent_while_retained; [|exact Hret].
    apply dispatchEffect_records. exact Hcur. }
  destruct (filter _ _) as [|[ts x] r] eqn:Hfilter; [reflexivity|].
  exfalso.
  assert (Hin : (ts, x) ∈ filter (fun call : Z * io => fst call = timestamp e)
                  (fired tr (fst (dispatchEffect amb audio chat c)))).
  { rewrite Hfilter. apply list_elem_of_here. }
  apply list_elem_of_filter in Hin. destruct Hin as [Hts Hin].
  simpl in Hts. subst ts. exact (Hnone x Hin).
Qed.

(** Witness of C2: the woodcutting level-up is dispatched, then it is
    observed again, a cleanup tick comes 30 seconds after its timestamp, and
    it is observed once more. *)
Lemma dispatch_at_most_once_witness :
  firedFor 1000
    [ Observe sampleAmbient (Some (workingAudio None)) (Some workingChat)
        (Some woodcutting10);
      Tick 31000;
      Observe sampleAmbient (Some (workingAudio None)) (Some workingChat)
        (Some woodcutting10) ]
    (fst (dispatchEffect sampleAmbient (Some (workingAudio None))
            (Some workingChat) (showing woodcutting10))) = [].
Proof.
  apply (dispatch_at_most_once sampleAmbient (Some (workingAudio None))
           (Some workingChat) (showing woodcutting10) woodcutting10).
  - reflexivity.
  - simpl. unfold threshold. split; [lia | exact I].
Defined.

(** *** Failing capabilities *)

(** Counterexample to C3 as stated: the chat append throws while the
    woodcutting level-up is dispatched; the effect completes by throwing
    the same exception, and nothing is written to the console. *)
Lemma chat_failure_is_not_swallowed :
  let run := dispatchEffect sampleAmbient None (Some failingChat)
               (showing woodcutting10) in
  outcome (snd run) = Throw (Error "chat unavailable")
  /\ outcome (snd run) <> Normal tt
  /\ consoleErrors (calls (snd run)) = [].
Proof. vm_compute. repeat split; congruence. Qed.

(** C3, amended.  When a capability call made for a new current item
    throws, the dispatch effect does not catch or log it: the effect
    completes by throwing that exception (a throw from the audio call also
    skips the chat append), nothing is written to the console, the
    timestamp stays recorded as processed, and the effect itself writes
    neither the queue nor the current item. *)
Theorem capability_failure_propagates amb audio chat (c : component)
    (e : LevelUpEvent) (err : exn) :
  currentLevelUp (hook c) = Some e ->
  timestamp e ∉ processedRef c ->
  audioThrows audio e err
    \/ (audioReturns audio e /\ chatThrows amb chat e err) ->
  let run := dispatchEffect amb audio chat c in
  outcome (snd run) = Throw err
  /\ consoleErrors (calls (snd run)) = []
  /\ (audioThrows audio e err -> chatAdds (calls (snd run)) = [])
  /\ hook (fst run) = hook c
  /\ timestamp e ∈ processedRef (fst run).
Proof.
  intros Hcur Hnew Hfail run. subst run.
  rewrite (dispatchEffect_new amb audio chat c e Hcur Hnew).
  cbn [fst snd hook processedRef].
  rewrite outcome_bind, calls_bind, consoleErrors_app, chatAdds_app.
  destruct (audioPart_calls audio e) as [HnoChat HnoLog].
  destruct (chatPart_calls amb chat e) as [_ HnoLog'].
  rewrite HnoChat, HnoLog.
  split; [|split; [|split; [|split]]].
  - destruct Hfail as [Ha | [Ha (ch & -> & Hadd)]].
    + rewrite (audioPart_throws _ _ _ Ha). reflexivity.
    + rewrite (audioPart_returns _ _ Ha). unfold chatPart. exact Hadd.
  - destruct (outcome (audioPart audio e)); [exact HnoLog' | reflexivity].
  - intros Ha. rewrite (audioPart_throws _ _ _ Ha). reflexivity.
  - reflexivity.
  - apply elem_of_union. left. apply elem_of_singleton. reflexivity.
Qed.

(** Witness of C3, amended: the failing chat of the counterexample. *)
Lemma capability_failure_propagates_witness :
  let run := dispatchEffect sampleAmbient (Some (workingAudio None))
               (Some failingChat) (showing woodcutting10) in
  outcome (snd run) = Throw (Error "chat unavailable")
  /\ consoleErrors (calls (snd run)) = []
  /\ (audioThrows (Some (workingAudio None)) woodcutting10
        (Error "chat unavailable") -> chatAdds (calls (snd run)) = [])
  /\ hook (fst run) = hook (showing woodcutting10)
  /\ timestamp woodcutting10 ∈ processedRef (fst run).
Proof.
  apply (capability_failure_propagates sampleAmbient (Some (workingAudio None))
           (Some failingChat) (showing woodcutting10) woodcutting10
           (Error "chat unavailable")).
  - reflexivity.
  - simpl. apply not_elem_of_empty.
  - right. split.
    + intros a Ha _. injection Ha as <-. reflexivity.
    + exists failingChat. split; reflexivity.
Defined.

(** *** The chat line *)

(** Counterexample to C7 as stated: a chat capability is present and the
    item is new, but the audio scheduling call throws first, so no message
    is appended. *)
Lemma audio_failure_skips_chat :
  let run := dispatchEffect sampleAmbient (Some failingAudio) (Some workingChat)
               (showing woodcutting10) in
  (timestamp woodcutting10 ∉ processedRef (showing woodcutting10))
  /\ chatAdds (calls (snd run)) = []
  /\ outcome (snd run) = Throw (Error "audio context closed").
Proof.
  split.
  - apply not_elem_of_empty.
  - vm_compute. split; reflexivity.
Qed.

(** C7, amended.  For every new current item with a chat capability
    present, provided the audio scheduling call (when one is made) returns,
    the dispatcher appends exactly one message: its body and text are
    "Congratulations! You've advanced a <Skill> level. You are now level
    <newLevel>." with the skill capitalized by [capitalizeSkill], its
    sender is empty and its broadcast flag is false; for woodcutting at
    level 10 the body is "Congratulations! You've advanced a Woodcutting
    level. You are now level 10.". *)
Theorem chat_line_of_level_up amb audio (ch : Chat) (c : component)
    (e : LevelUpEvent) :
  currentLevelUp (hook c) = Some e ->
  timestamp e ∉ processedRef c ->
  audioReturns audio e ->
  let line :=
    ("Congratulations! You've advanced a " ++ capitalizeSkill (skill e)
     ++ " level. You are now level " ++ numberToString (newLevel e) ++ ".")%string in
  chatAdds (calls (snd (dispatchEffect amb audio (Some ch) c))) =
    [ ({| id := uuid amb; from := ""; body := line; text := line;
          msg_timestamp := Date_now amb;
          createdAt := toISOString amb (Date_now amb) |}, false) ]
  /\ messageBody woodcutting10 =
     "Congratulations! You've advanced a Woodcutting level. You are now level 10."%string.
Proof.
  intros Hcur Hnew Haudio line. split; [|reflexivity].
  rewrite (dispatchEffect_new amb audio (Some ch) c e Hcur Hnew).
  cbn [snd]. rewrite calls_bind, chatAdds_app.
  destruct (audioPart_calls audio e) as [-> _].
  rewrite (audioPart_returns _ _ Haudio). reflexivity.
Qed.

(** Witness of C7, amended: the end-to-end scenario, audio at full gain. *)
Lemma chat_line_of_level_up_witness :
  chatAdds (calls (snd (dispatchEffect sampleAmbient
                          (Some (workingAudio (Some 1%Q))) (Some workingChat)
                          (showing woodcutting10)))) =
    [ ({| id := uuid sampleAmbient; from := "";
          body := "Congratulations! You've advanced a Woodcutting level. You are now level 10.";
          text := "Congratulations! You've advanced a Woodcutting level. You are now level 10.";
          msg_timestamp := 1000;
          createdAt := "1970-01-01T00:00:01.000Z" |}, false) ]
  /\ messageBody woodcutting10 =
     "Congratulations! You've advanced a Woodcutting level. You are now level 10."%string.
Proof.
  apply (chat_line_of_level_up sampleAmbient (Some (workingAudio (Some 1%Q)))
           workingChat (showing woodcutting10) woodcutting10).
  - reflexivity.
  - simpl. apply not_elem_of_empty.
  - intros a Ha _. injection Ha as <-. reflexivity.
Defined.

(** *** The audio gate *)

(** C10. For every new current item and every audio capability present:
    without a readable sfx gain value the volume is 1 and the fanfare for
    the new level is scheduled; with a gain value it is scheduled when the
    value is above 0 and not scheduled when the value is 0 or less. *)
Theorem audio_gate_defaults_to_one amb (a : ClientAudio) chat (c : component)
    (e : LevelUpEvent) :
  currentLevelUp (hook c) = Some e ->
  timestamp e ∉ processedRef c ->
  let scheduled :=
    audioCalls (calls (snd (dispatchEffect amb (Some a) chat c))) in
  (sfx_gain_value a = None -> scheduled = [playLevelUpFanfare (newLevel e)])
  /\ (forall v : Q, sfx_gain_value a = Some v -> (0 < v)%Q ->
        scheduled = [playLevelUpFanfare (newLevel e)])
  /\ (forall v : Q, sfx_gain_value a = Some v -> (v <= 0)%Q -> scheduled = []).
Proof.
  intros Hcur Hnew scheduled. subst scheduled.
  rewrite (dispatchEffect_new amb (Some a) chat c e Hcur Hnew).
  cbn [snd]. rewrite calls_bind, audioCalls_app.
  assert (Hchat : audioCalls
            match outcome (audioPart (Some a) e) with
            | Normal _ => calls (chatPart amb chat e)
            | Throw _ => []
            end = []).
  { destruct (outcome (audioPart (Some a) e)); [|reflexivity].
    apply (chatPart_calls amb chat e). }
  rewrite Hchat, app_nil_r. unfold audioPart.
  split; [|split].
  - intros ->. reflexivity.
  - intros v -> Hpos. simpl default.
    rewrite (proj2 (number_gt_true v 0) Hpos). reflexivity.
  - intros v -> Hneg. simpl default.
    rewrite (proj2 (number_gt_false v 0) Hneg). reflexivity.
Qed.

(** Witness of C10: no gain value on the audio system, milestone level. *)
Lemma audio_gate_defaults_to_one_witness :
  let a := workingAudio None in
  let scheduled :=
    audioCalls (calls (snd (dispatchEffect sampleAmbient (Some a)
                              (Some workingChat) (showing woodcutting10)))) in
  (sfx_gain_value a = None -> scheduled = [MilestoneLevelUpSound])
  /\ (forall v : Q, sfx_gain_value a = Some v -> (0 < v)%Q ->
        scheduled = [MilestoneLevelUpSound])
  /\ (forall v : Q, sfx_gain_value a = Some v -> (v <= 0)%Q -> scheduled = []).
Proof.
  apply (audio_gate_defaults_to_one sampleAmbient (workingAudio None)
           (Some workingChat) (showing woodcutting10) woodcutting10).
  - reflexivity.
  - simpl. apply not_elem_of_empty.
Defined.

End Dispatcher.

(** ** The native-shell wrapper *)

Section NativeShell.
Import Js Eff Tauri.

Lemma getTauri_absent {A} (rt : runtime) (imported : completion A) :
  isTauriApp rt = false -> getTauri rt imported = ret None.
Proof. unfold getTauri. intros ->. reflexivity. Qed.

(** C8. [parseOAuthCallback] never throws: for every input string it
    completes normally, without any call on a collaborator, with a record
    of the "code", "state" and "error" query parameters of the parsed URL
    (null for each one absent), or with [{code: null, state: null, error:
    "Invalid URL"}] when the URL constructor throws. *)
Theorem parseOAuthCallback_never_throws (new_URL : string -> completion URL)
    (url : string) :
  parseOAuthCallback new_URL url =
    ([], Normal
           match new_URL url with
           | Normal parsed =>
               {| code := searchParams_get (searchParams parsed) "code";
                  state := searchParams_get (searchParams parsed) "state";
                  error := searchParams_get (searchParams parsed) "error" |}
           | Throw _ =>
               {| code := None; state := None; error := Some "Invalid URL"%string |}
           end).
Proof.
  unfold parseOAuthCallback, lift, bind, try_catch, ret.
  destruct (new_URL url) as [parsed|err]; reflexivity.
Qed.

(** Counterexample to C9 as stated: in a plain browser tab the native layer
    is not present, [getPlatformInfo] and [onDeepLink] return null, and
    [openExternalUrl] returns [true]. *)
Lemma openExternalUrl_reports_success_without_native :
  isTauriApp browserTab = false
  /\ outcome (getPlatformInfo browserTab) = Normal None
  /\ outcome (onDeepLink browserTab) = Normal None
  /\ outcome (openExternalUrl browserTab "https://example.com/oauth") = Normal true
  /\ outcome (openExternalUrl browserTab "https://example.com/oauth") <> Normal false.
Proof. vm_compute. repeat split; congruence. Qed.

(** C9, amended.  For every url, when the native layer is not present,
    [getPlatformInfo] and [onDeepLink] return null without calling
    anything, whereas [openExternalUrl url], in a runtime with a window,
    falls back to [window.open(url, "_blank")] and returns [true]. *)
Theorem openExternalUrl_falls_back_to_window_open (rt : runtime) (url : string) :
  isTauriApp rt = false ->
  window_defined rt = true ->
  getPlatformInfo rt = ([], Normal None)
  /\ onDeepLink rt = ([], Normal None)
  /\ openExternalUrl rt url = ([WindowOpen url "_blank"], Normal true).
Proof.
  intros Hnative Hwindow.
  unfold getPlatformInfo, onDeepLink, openExternalUrl,
    getTauriCore, getTauriEvent, getTauriOpener.
  rewrite !(getTauri_absent rt _ Hnative).
  unfold window_open. rewrite Hwindow. repeat split; reflexivity.
Qed.

(** Witness of C9, amended: the browser tab of the counterexample. *)
Lemma openExternalUrl_falls_back_to_window_open_witness :
  getPlatformInfo browserTab = ([], Normal None)
  /\ onDeepLink browserTab = ([], Normal None)
  /\ openExternalUrl browserTab "https://example.com/oauth"
     = ([WindowOpen "https://example.com/oauth" "_blank"], Normal true).
Proof.
  apply (openExternalUrl_falls_back_to_window_open browserTab
           "https://example.com/oauth"); reflexivity.
Defined.

End NativeShell.

(* ===================================================================== *)
(** * Further properties of the code                                      *)
(* ===================================================================== *)

(** ** Skill names *)

Section SkillNames.
Import Js Utils.

Ltac by_cases_on_ascii c :=
  destruct c as [[] [] [] [] [] [] [] []]; vm_compute; reflexivity.

Lemma lower_upper_char (c : ascii) : lower_char (upper_char c) = lower_char c.
Proof. by_cases_on_ascii c. Qed.

Lemma upper_upper_char (c : ascii) : upper_char (upper_char c) = upper_char c.
Proof. by_cases_on_ascii c. Qed.

Lemma lower_char_not_upper (c : ascii) : is_upper_ascii (lower_char c) = false.
Proof. by_cases_on_ascii c. Qed.

Lemma replace_white_space_twice (s : string) :
  replace_white_space (replace_white_space s) = replace_white_space s.
Proof.
  induction s as [|c r IH]; simpl; [reflexivity|].
  destruct (is_white_space c) eqn:E; simpl; [exact IH|].
  rewrite E, IH. reflexivity.
Qed.

Lemma replace_white_space_app (a b : string) :
  replace_white_space (a ++ b)%string
  = (replace_white_space a ++ replace_white_space b)%string.
Proof.
  induction a as [|c r IH]; simpl; [reflexivity|].
  destruct (is_white_space c); simpl; rewrite IH; reflexivity.
Qed.

Lemma map_chars_app (f : ascii -> ascii) (a b : string) :
  map_chars f (a ++ b)%string = (map_chars f a ++ map_chars f b)%string.
Proof. induction a as [|c r IH]; simpl; [|rewrite IH]; reflexivity. Qed.

Lemma map_chars_compose (f g h : ascii -> ascii) (s : string) :
  (forall c, f (g c) = h c) -> map_chars f (map_chars g s) = map_chars h s.
Proof.
  intros Hc. induction s as [|c r IH]; simpl; [reflexivity|].
  rewrite Hc, IH. reflexivity.
Qed.

Lemma map_chars_length (f : ascii -> ascii) (s : string) :
  String.length (map_chars f s) = String.length s.
Proof. induction s as [|c r IH]; simpl; [|rewrite IH]; reflexivity. Qed.

Lemma normalized_chars (s : string) :
  Forall (fun c => is_white_space c = false /\ is_upper_ascii c = false)
         (list_ascii_of_string (replace_white_space (map_chars lower_char s))).
Proof.
  induction s as [|c r IH]; simpl; [constructor|].
  destruct (is_white_space (lower_char c)) eqn:E; [exact IH|].
  simpl. constructor; [|exact IH].
  split; [exact E | apply lower_char_not_upper].
Qed.

Lemma capitalizeSkill_cons (c : ascii) (r : string) :
  capitalizeSkill (String c r) = String (upper_char c) (map_chars lower_char r).
Proof. reflexivity. Qed.

(** X1. On ASCII strings [normalizeSkillName] gives a key: its result has
    no white space and no upper-case letter, normalizing a key again changes
    nothing, and the key of a concatenation is the concatenation of the
    keys. *)
Theorem normalizeSkillName_is_a_key (s a b : string) :
  isAscii s = true -> isAscii a = true -> isAscii b = true ->
  Forall (fun c => is_white_space c = false /\ is_upper_ascii c = false)
         (list_ascii_of_string (normalizeSkillName s))
  /\ normalizeSkillName (normalizeSkillName s) = normalizeSkillName s
  /\ normalizeSkillName (a ++ b)%string
     = (normalizeSkillName a ++ normalizeSkillName b)%string.
Proof.
  intros _ _ _.
  split; [apply normalized_chars|]. split.
  - unfold normalizeSkillName.
    rewrite (replace_white_space_lower (replace_white_space (toLowerCase s))).
    rewrite replace_white_space_twice.
    rewrite <- (replace_white_space_lower (toLowerCase s)).
    unfold toLowerCase at 1 2.
    rewrite (map_chars_compose _ _ lower_char s lower_lower_char). reflexivity.
  - unfold normalizeSkillName, toLowerCase.
    rewrite map_chars_app, replace_white_space_app. reflexivity.
Qed.

(** Witness of X1: "Hit Points", and "Hit " joined to "Points". *)
Lemma normalizeSkillName_is_a_key_witness :
  Forall (fun c => is_white_space c = false /\ is_upper_ascii c = false)
         (list_ascii_of_string (normalizeSkillName "Hit Points"))
  /\ normalizeSkillName (normalizeSkillName "Hit Points") = normalizeSkillName "Hit Points"
  /\ normalizeSkillName ("Hit " ++ "Points")%string
     = (normalizeSkillName "Hit " ++ normalizeSkillName "Points")%string.
Proof.
  apply (normalizeSkillName_is_a_key "Hit Points" "Hit " "Points"); reflexivity.
Defined.

(** X2. On ASCII strings the display form leads back to the key:
    normalizing a capitalized skill name gives the key of the name
    itself. *)
Theorem normalize_after_capitalize (s : string) :
  isAscii s = true ->
  normalizeSkillName (capitalizeSkill s) = normalizeSkillName s.
Proof.
  intros _.
  destruct s as [|c r]; [reflexivity|].
  rewrite capitalizeSkill_cons. unfold normalizeSkillName, toLowerCase.
  cbn [map_chars]. rewrite lower_upper_char.
  rewrite (map_chars_compose _ _ lower_char r lower_lower_char). reflexivity.
Qed.

(** Witness of X2: "hit POINTS". *)
Lemma normalize_after_capitalize_witness :
  normalizeSkillName (capitalizeSkill "hit POINTS") = normalizeSkillName "hit POINTS".
Proof. apply (normalize_after_capitalize "hit POINTS"). reflexivity. Defined.

(** X3. On ASCII strings [capitalizeSkill] keeps the length of its argument
    (it strips nothing, and [""] stays [""]), does nothing to a capitalized
    name, and does not depend on the case of its argument. *)
Theorem capitalizeSkill_shape (s : string) :
  isAscii s = true ->
  String.length (capitalizeSkill s) = String.length s
  /\ capitalizeSkill (capitalizeSkill s) = capitalizeSkill s
  /\ capitalizeSkill (toUpperCase s) = capitalizeSkill s
  /\ capitalizeSkill (toLowerCase s) = capitalizeSkill s.
Proof.
  intros _.
  destruct s as [|c r]; [repeat split; reflexivity|].
  unfold toUpperCase, toLowerCase. cbn [map_chars].
  rewrite !capitalizeSkill_cons. cbn [String.length].
  rewrite map_chars_length, upper_upper_char, upper_lower_char.
  rewrite (map_chars_compose _ _ lower_char r lower_lower_char).
  rewrite (map_chars_compose _ _ lower_char r lower_upper_char).
  repeat split; reflexivity.
Qed.

(** Witness of X3: "wOoDcUtTiNg". *)
Lemma capitalizeSkill_shape_witness :
  String.length (capitalizeSkill "wOoDcUtTiNg") = String.length "wOoDcUtTiNg"
  /\ capitalizeSkill (capitalizeSkill "wOoDcUtTiNg") = capitalizeSkill "wOoDcUtTiNg"
  /\ capitalizeSkill (toUpperCase "wOoDcUtTiNg") = capitalizeSkill "wOoDcUtTiNg"
  /\ capitalizeSkill (toLowerCase "wOoDcUtTiNg") = capitalizeSkill "wOoDcUtTiNg".
Proof. apply (capitalizeSkill_shape "wOoDcUtTiNg"). reflexivity. Defined.

End SkillNames.

(** ** The hook between dismissals *)

Section HookSteps.
Import LevelUpState.

(** X4. No preemption: while an item is current, arrivals and runs of the
    queue effect leave it current; they show nothing and only append the
    arriving events to the queue. *)
Theorem current_item_stays_until_dismissed (tr : list action)
    (q : list LevelUpEvent) (e : LevelUpEvent) :
  Forall (fun a => a <> Dismiss) tr ->
  exec tr (mkState q (Some e)) = ([], mkState (q ++ arrivals tr) (Some e)).
Proof.
  revert q. induction tr as [|a tr IH]; intros q Hno.
  - simpl. rewrite app_nil_r. reflexivity.
  - inversion Hno as [|? ? Ha Hrest]; subst.
    destruct a as [now data| |]; [| congruence |].
    + cbn [exec step]. unfold handleLevelUp. cbn [levelUpQueue currentLevelUp].
      rewrite (IH _ Hrest). cbn [arrivals]. rewrite <- app_assoc. reflexivity.
    + cbn [exec step]. rewrite processQueue_current.
      rewrite (IH _ Hrest). reflexivity.
Qed.

(** Witness of X4: two arrivals and two runs of the effect while the
    woodcutting level-up is showing. *)
Lemma current_item_stays_until_dismissed_witness :
  exec [Arrive 5 Samples.fishingData; RunEffect;
        Arrive 6 Samples.woodcuttingData; RunEffect]
       (mkState [] (Some Notification.woodcutting10))
  = ([], mkState ([] ++ arrivals [Arrive 5 Samples.fishingData; RunEffect;
                                  Arrive 6 Samples.woodcuttingData; RunEffect])
                 (Some Notification.woodcutting10)).
Proof.
  apply (current_item_stays_until_dismissed
           [Arrive 5 Samples.fishingData; RunEffect;
            Arrive 6 Samples.woodcuttingData; RunEffect]
           [] Notification.woodcutting10).
  repeat constructor; discriminate.
Defined.

(** X5. Dismissal advances the queue by one: after [dismissLevelUp] the
    queue effect makes the head of the queue current and keeps the tail,
    whatever was current before; run again, the effect changes nothing. *)
Theorem dismiss_then_effect_advances (s : state) :
  processQueue (dismissLevelUp s)
  = {| levelUpQueue := tail (levelUpQueue s);
       currentLevelUp := head (levelUpQueue s) |}
  /\ processQueue (processQueue (dismissLevelUp s)) = processQueue (dismissLevelUp s)
  /\ processQueue (processQueue s) = processQueue s.
Proof. destruct s as [[|e q] [cur|]]; repeat split; reflexivity. Qed.

End HookSteps.

(** ** One run of the dispatch effect *)

Section DispatchRuns.
Import Js Utils LevelUpAudio Eff LevelUpState Notification.

Lemma audioPart_shape (audio : option ClientAudio) (e : LevelUpEvent) :
  calls (audioPart audio e) = map AudioReady (audioCalls (calls (audioPart audio e)))
  /\ (length (audioCalls (calls (audioPart audio e))) <= 1)%nat.
Proof.
  unfold audioPart. destruct audio as [a|]; [|split; [reflexivity | simpl; lia]].
  destruct (number_gt _ _); split; simpl; try reflexivity; lia.
Qed.

Lemma chatPart_shape amb (chat : option Chat) (e : LevelUpEvent) :
  calls (chatPart amb chat e)
  = map (fun mb => ChatAdd (fst mb) (snd mb)) (chatAdds (calls (chatPart amb chat e)))
  /\ (length (chatAdds (calls (chatPart amb chat e))) <= 1)%nat
  /\ Forall (fun mb => snd mb = false /\ from (fst mb) = ""%string
                       /\ body (fst mb) = messageBody e)
            (chatAdds (calls (chatPart amb chat e))).
Proof.
  unfold chatPart. destruct chat as [ch|]; simpl.
  - repeat split; [lia | repeat constructor].
  - repeat split; [lia | constructor].
Qed.

(** X6. What a run of the dispatch effect can do, whatever the item and the
    capabilities: it calls [audio.ready] at most once and then [chat.add] at
    most once and nothing else, never writes to the console, appends only
    with the broadcast flag false and an empty sender, leaves the hook state
    alone and adds at most the timestamp of the current item to the
    processed set. *)
Theorem dispatch_run_shape amb audio chat (c : component) :
  let run := dispatchEffect amb audio chat c in
  calls (snd run)
    = map AudioReady (audioCalls (calls (snd run)))
      ++ map (fun mb => ChatAdd (fst mb) (snd mb)) (chatAdds (calls (snd run)))
  /\ (length (audioCalls (calls (snd run))) <= 1)%nat
  /\ (length (chatAdds (calls (snd run))) <= 1)%nat
  /\ consoleErrors (calls (snd run)) = []
  /\ Forall (fun mb => snd mb = false /\ from (fst mb) = ""%string)
            (chatAdds (calls (snd run)))
  /\ hook (fst run) = hook c
  /\ processedRef c ⊆ processedRef (fst run)
  /\ (forall t, t ∈ processedRef (fst run) ->
        t ∈ processedRef c \/ exists e, currentLevelUp (hook c) = Some e /\ t = timestamp e).
Proof.
  intros run. subst run. unfold dispatchEffect.
  destruct (currentLevelUp (hook c)) as [e|] eqn:Hcur.
  2:{ cbn. split; [reflexivity|]. split; [lia|]. split; [lia|].
      split; [reflexivity|]. split; [constructor|]. split; [reflexivity|].
      split; [reflexivity|]. intros t Ht. left. exact Ht. }
  destruct (bool_decide (timestamp e ∈ processedRef c)).
  { cbn. split; [reflexivity|]. split; [lia|]. split; [lia|].
    split; [reflexivity|]. split; [constructor|]. split; [reflexivity|].
    split; [reflexivity|]. intros t Ht. left. exact Ht. }
  cbn [fst snd hook processedRef].
  assert (Hgrow : processedRef c ⊆ {[timestamp e]} ∪ processedRef c)
    by (apply union_subseteq_r).
  assert (Hnew : forall t, t ∈ ({[timestamp e]} ∪ processedRef c : gset Z) ->
            t ∈ processedRef c \/ exists e0, Some e = Some e0 /\ t = timestamp e0).
  { intros t Ht. apply elem_of_union in Ht as [Ht|Ht]; [|left; exact Ht].
    right. exists e. apply elem_of_singleton in Ht. split; [reflexivity | exact Ht]. }
  rewrite calls_bind.
  destruct (audioPart_shape audio e) as [Ha Hla].
  destruct (audioPart_calls audio e) as [HaChat HaLog].
  destruct (chatPart_shape amb chat e) as (Hc & Hlc & Hcf).
  destruct (chatPart_calls amb chat e) as [HcAudio HcLog].
  rewrite audioCalls_app, chatAdds_app, consoleErrors_app, HaChat, HaLog.
  destruct (outcome (audioPart audio e)) as [[]|err].
  - rewrite HcAudio, HcLog, app_nil_r. cbn [app].
    rewrite <- Ha, <- Hc.
    split; [reflexivity|]. split; [exact Hla|]. split; [exact Hlc|].
    split; [reflexivity|]. split; [|split; [reflexivity|split; [exact Hgrow|exact Hnew]]].
    eapply Forall_impl; [exact Hcf|]. intros mb (H1 & H2 & _). split; assumption.
  - rewrite !app_nil_r.
    split; [exact Ha|]. split; [exact Hla|]. split; [simpl; lia|].
    split; [reflexivity|]. split; [constructor|].
    split; [reflexivity|split; [exact Hgrow|exact Hnew]].
Qed.

(** X7. The first run for an item, with an audio system whose effective
    volume is above 0 and whose [ready] returns and with a chat system:
    exactly two calls are made, [audio.ready] for the fanfare of the new
    level and then [chat.add] of the level-up line, not broadcast; the run
    completes as the chat append does. *)
Theorem first_dispatch_fires_audio_then_chat amb (a : ClientAudio) (ch : Chat)
    (c : component) (e : LevelUpEvent) :
  currentLevelUp (hook c) = Some e ->
  timestamp e ∉ processedRef c ->
  number_gt (default 1%Q (sfx_gain_value a)) 0%Q = true ->
  ready a (playLevelUpFanfare (newLevel e)) = Normal tt ->
  snd (dispatchEffect amb (Some a) (Some ch) c)
  = ([ AudioReady (playLevelUpFanfare (newLevel e));
       ChatAdd (levelUpMessage amb e) false ],
     add ch (levelUpMessage amb e) false).
Proof.
  intros Hcur Hnew Hgain Hready.
  rewrite (dispatchEffect_new amb (Some a) (Some ch) c e Hcur Hnew).
  cbn [snd]. unfold audioPart, chatPart, call, bind.
  rewrite Hgain, Hready. reflexivity.
Qed.

(** Witness of X7: the end-to-end scenario. *)
Lemma first_dispatch_fires_audio_then_chat_witness :
  snd (dispatchEffect sampleAmbient (Some (workingAudio None)) (Some workingChat)
         (showing woodcutting10))
  = ([ AudioReady (playLevelUpFanfare (newLevel woodcutting10));
       ChatAdd (levelUpMessage sampleAmbient woodcutting10) false ],
     add workingChat (levelUpMessage sampleAmbient woodcutting10) false).
Proof.
  apply (first_dispatch_fires_audio_then_chat sampleAmbient (workingAudio None)
           workingChat (showing woodcutting10) woodcutting10).
  - reflexivity.
  - simpl. apply not_elem_of_empty.
  - reflexivity.
  - reflexivity.
Defined.

(** *** The cleanup interval *)

Lemma cleanupTick_elem (now t : Z) (c : component) :
  t ∈ processedRef (cleanupTick now c) <-> t ∈ processedRef c /\ now - t <= threshold.
Proof.
  unfold cleanupTick. cbn [processedRef]. rewrite elem_of_filter.
  split; intros [H1 H2]; split; try assumption; lia.
Qed.

(** X8. A cleanup tick keeps exactly the timestamps that are not more than
    60000 behind the clock (one that is exactly 60000 behind stays), never
    adds one, leaves the hook state alone, and two ticks in a row do what
    the later of them does alone. *)
Theorem cleanup_keeps_the_recent (now later t : Z) (c : component) :
  (t ∈ processedRef (cleanupTick now c) <-> t ∈ processedRef c /\ now - t <= 60000)
  /\ processedRef (cleanupTick now c) ⊆ processedRef c
  /\ hook (cleanupTick now c) = hook c
  /\ cleanupTick later (cleanupTick now c) = cleanupTick (Z.max now later) c.
Proof.
  split; [apply cleanupTick_elem|]. split; [|split; [reflexivity|]].
  - intros x Hx. apply cleanupTick_elem in Hx. tauto.
  - unfold cleanupTick at 1 3. cbn [hook]. f_equal.
    apply set_eq. intros x.
    rewrite elem_of_filter, (cleanupTick_elem now x c), elem_of_filter.
    unfold threshold. intuition lia.
Qed.

(** X9. Retention: once a cleanup tick has come more than 60000 after the
    timestamp of an item, the next run for an item with that timestamp makes
    the calls of a first run, whether or not it was dispatched before. *)
Theorem redelivery_after_purge_dispatches_again amb audio chat (c : component)
    (e : LevelUpEvent) (now : Z) :
  now - timestamp e > 60000 ->
  snd (dispatchEffect amb audio chat (withCurrent (Some e) (cleanupTick now c)))
  = bind (audioPart audio e) (fun _ => chatPart amb chat e)
  /\ timestamp e ∈
       processedRef (fst (dispatchEffect amb audio chat
                            (withCurrent (Some e) (cleanupTick now c)))).
Proof.
  intros Hold.
  assert (Hgone : timestamp e ∉ processedRef (withCurrent (Some e) (cleanupTick now c))).
  { apply cleanupTick_purges. exact Hold. }
  rewrite (dispatchEffect_new amb audio chat
             (withCurrent (Some e) (cleanupTick now c)) e eq_refl Hgone).
  split; [reflexivity|]. cbn [fst processedRef].
  apply elem_of_union. left. apply elem_of_singleton. reflexivity.
Qed.

(** Witness of X9: the woodcutting level-up of time 1000 was dispatched, a
    tick comes at 61001, and the item is delivered again. *)
Lemma redelivery_after_purge_dispatches_again_witness :
  snd (dispatchEffect sampleAmbient (Some (workingAudio None)) (Some workingChat)
         (withCurrent (Some woodcutting10)
            (cleanupTick 61001
               (fst (dispatchEffect sampleAmbient (Some (workingAudio None))
                       (Some workingChat) (showing woodcutting10))))))
  = bind (audioPart (Some (workingAudio None)) woodcutting10)
         (fun _ => chatPart sampleAmbient (Some workingChat) woodcutting10)
  /\ timestamp woodcutting10 ∈
       processedRef (fst (dispatchEffect sampleAmbient (Some (workingAudio None))
          (Some workingChat)
          (withCurrent (Some woodcutting10)
            (cleanupTick 61001
               (fst (dispatchEffect sampleAmbient (Some (workingAudio None))
                       (Some workingChat) (showing woodcutting10))))))).
Proof.
  apply (redelivery_after_purge_dispatches_again sampleAmbient
           (Some (workingAudio None)) (Some workingChat)
           (fst (dispatchEffect sampleAmbient (Some (workingAudio None))
                   (Some workingChat) (showing woodcutting10)))
           woodcutting10 61001).
  simpl. lia.
Defined.

Lemma firedFor_silent (ts : Z) (tr : list event) (c : component) :
  (forall x : io, (ts, x) ∉ fired tr c) -> firedFor ts tr c = [].
Proof.
  intros Hnone. unfold firedFor.
  induction (fired tr c) as [|[t x] r IH]; [reflexivity|].
  rewrite filter_cons. destruct (decide (fst (t, x) = ts)) as [Heq|Hne].
  - exfalso. simpl in Heq. subst t. apply (Hnone x). apply list_elem_of_here.
  - apply IH. intros y Hy. apply (Hnone y). apply list_elem_of_further. exact Hy.
Qed.

(** X10. A failed dispatch is not tried again: when the audio call throws
    during the first run for an item, no chat line is appended in that run,
    and while the timestamp is retained no later run makes any call for an
    item with that timestamp. *)
Theorem failed_dispatch_is_not_retried amb audio chat (c : component)
    (e : LevelUpEvent) (err : exn) (tr : list event) :
  currentLevelUp (hook c) = Some e ->
  timestamp e ∉ processedRef c ->
  audioThrows audio e err ->
  retained (timestamp e) tr ->
  outcome (snd (dispatchEffect amb audio chat c)) = Throw err
  /\ chatAdds (calls (snd (dispatchEffect amb audio chat c))) = []
  /\ firedFor (timestamp e) tr (fst (dispatchEffect amb audio chat c)) = [].
Proof.
  intros Hcur Hnew Hthrow Hret.
  split; [|split].
  - rewrite (dispatchEffect_new amb audio chat c e Hcur Hnew). cbn [snd].
    rewrite outcome_bind, (audioPart_throws _ _ _ Hthrow). reflexivity.
  - rewrite (dispatchEffect_new amb audio chat c e Hcur Hnew). cbn [snd].
    rewrite calls_bind, chatAdds_app, (audioPart_throws _ _ _ Hthrow).
    destruct (audioPart_calls audio e) as [-> _]. reflexivity.
  - apply firedFor_silent. apply fired_silent_while_retained; [|exact Hret].
    apply dispatchEffect_records. exact Hcur.
Qed.

(** Witness of X10: the audio system fails for the woodcutting level-up;
    the item is then observed twice more with a working audio system. *)
Lemma failed_dispatch_is_not_retried_witness :
  outcome (snd (dispatchEffect sampleAmbient (Some failingAudio) (Some workingChat)
                  (showing woodcutting10)))
    = Throw (Error "audio context closed")
  /\ chatAdds (calls (snd (dispatchEffect sampleAmbient (Some failingAudio)
                            (Some workingChat) (showing woodcutting10)))) = []
  /\ firedFor (timestamp woodcutting10)
       [ Observe sampleAmbient (Some (workingAudio None)) (Some workingChat)
           (Some woodcutting10);
         Tick 31000;
         Observe sampleAmbient (Some (workingAudio None)) (Some workingChat)
           (Some woodcutting10) ]
       (fst (dispatchEffect sampleAmbient (Some failingAudio) (Some workingChat)
               (showing woodcutting10))) = [].
Proof.
  apply (failed_dispatch_is_not_retried sampleAmbient (Some failingAudio)
           (Some workingChat) (showing woodcutting10) woodcutting10
           (Error "audio context closed")).
  - reflexivity.
  - simpl. apply not_elem_of_empty.
  - exists failingAudio. repeat split; reflexivity.
  - simpl. unfold threshold. split; [lia | exact I].
Defined.

End DispatchRuns.

(** ** The whole component *)

Section WholeComponent.
Import Js Eff LevelUpState Notification Pipeline.













End WholeComponent.

(** ** The fanfares *)

Section Fanfares.
Import Js Synth.

Ltac index_values :=
  unfold indexQ;
  repeat match goal with
  | |- context [inject_Z (Z.of_nat ?n)] =>
      let v := eval vm_compute in (inject_Z (Z.of_nat n)) in
      change (inject_Z (Z.of_nat n)) with v
  end.

Ltac unfold_fanfare :=
  cbv [playLevelUpSound playMilestoneLevelUpSound forEach playNote app
       oscillators connections starts stops times fst snd map length
       created currentTime].

Ltac distinct_nodes :=
  repeat (apply NoDup_cons; split;
          [ rewrite ?elem_of_cons, elem_of_nil; intros Hmem;
            repeat (destruct Hmem as [Hmem|Hmem]; [injection Hmem; lia|]);
            exact Hmem
          | ]);
  apply NoDup_nil; exact I.

(** X13. Either fanfare creates one oscillator and one gain node per note
    (4 notes, or 6 notes in each of two voices), the gain node right after
    its oscillator, and makes exactly two connections for each oscillator,
    in this order: the oscillator into its gain node, and that gain node
    into the destination the fanfare was given, or into the destination of
    the context when it was given none. *)
Theorem fanfares_route_to_the_output (ctx : AudioContext) (destination : option node) :
  length (oscillators (fst (playLevelUpSound ctx destination))) = 4%nat
  /\ length (oscillators (fst (playMilestoneLevelUpSound ctx destination))) = 12%nat
  /\ created (snd (playLevelUpSound ctx destination)) = (created ctx + 8)%nat
  /\ created (snd (playMilestoneLevelUpSound ctx destination)) = (created ctx + 24)%nat
  /\ gains (fst (playLevelUpSound ctx destination))
     = map gainOf (oscillators (fst (playLevelUpSound ctx destination)))
  /\ gains (fst (playMilestoneLevelUpSound ctx destination))
     = map gainOf (oscillators (fst (playMilestoneLevelUpSound ctx destination)))
  /\ connections (fst (playLevelUpSound ctx destination))
     = flat_map (fun o => [(o, gainOf o); (gainOf o, outputOf destination)])
                (oscillators (fst (playLevelUpSound ctx destination)))
  /\ connections (fst (playMilestoneLevelUpSound ctx destination))
     = flat_map (fun o => [(o, gainOf o); (gainOf o, outputOf destination)])
                (oscillators (fst (playMilestoneLevelUpSound ctx destination)))
  /\ Forall (routed (outputOf destination))
            (connections (fst (playLevelUpSound ctx destination)))
  /\ Forall (routed (outputOf destination))
            (connections (fst (playMilestoneLevelUpSound ctx destination)))
  /\ outputOf None = CtxDestination
  /\ outputOf (Some GroupGain) = GroupGain.
Proof.
  destruct ctx as [now n].
  split; [reflexivity|]. split; [reflexivity|].
  split; [unfold_fanfare; lia|]. split; [unfold_fanfare; lia|].
  split; [reflexivity|]. split; [reflexivity|].
  split; [reflexivity|]. split; [reflexivity|].
  split; [unfold_fanfare; repeat constructor|].
  split; [unfold_fanfare; repeat constructor|].
  split; reflexivity.
Qed.

(** X14. No oscillator is left running: in either fanfare the oscillators
    created are pairwise different, each is started once and stopped once,
    in the order of creation, and each stops later than it starts. *)
Theorem fanfare_oscillators_start_and_stop (ctx : AudioContext)
    (destination : option node) :
  (NoDup (oscillators (fst (playLevelUpSound ctx destination)))
   /\ map fst (starts (fst (playLevelUpSound ctx destination)))
      = oscillators (fst (playLevelUpSound ctx destination))
   /\ map fst (stops (fst (playLevelUpSound ctx destination)))
      = oscillators (fst (playLevelUpSound ctx destination))
   /\ Forall2 (fun s e => (snd s < snd e)%Q)
              (starts (fst (playLevelUpSound ctx destination)))
              (stops (fst (playLevelUpSound ctx destination))))
  /\ (NoDup (oscillators (fst (playMilestoneLevelUpSound ctx destination)))
      /\ map fst (starts (fst (playMilestoneLevelUpSound ctx destination)))
         = oscillators (fst (playMilestoneLevelUpSound ctx destination))
      /\ map fst (stops (fst (playMilestoneLevelUpSound ctx destination)))
         = oscillators (fst (playMilestoneLevelUpSound ctx destination))
      /\ Forall2 (fun s e => (snd s < snd e)%Q)
                 (starts (fst (playMilestoneLevelUpSound ctx destination)))
                 (stops (fst (playMilestoneLevelUpSound ctx destination)))).
Proof.
  destruct ctx as [now n].
  split; (split; [unfold_fanfare; distinct_nodes|]);
    (split; [reflexivity|]); (split; [reflexivity|]);
    unfold_fanfare; index_values; repeat constructor; cbn [snd]; lra.
Qed.

(** X15. Nothing is scheduled in the past and the fanfares are short: every
    time passed to a gain envelope, to [start] or to [stop] lies between the
    current time of the context and one second later for the normal
    fanfare, one and a half seconds later for the milestone fanfare. *)
Theorem fanfares_fit_their_window (ctx : AudioContext) (destination : option node) :
  Forall (fun t => (currentTime ctx <= t /\ t < currentTime ctx + 1)%Q)
         (times (fst (playLevelUpSound ctx destination)))
  /\ Forall (fun t => (currentTime ctx <= t /\ t < currentTime ctx + 1.5)%Q)
            (times (fst (playMilestoneLevelUpSound ctx destination))).
Proof.
  destruct ctx as [now n].
  split; unfold_fanfare; index_values; repeat constructor; lra.
Qed.

Lemma isMilestoneLevel_true (level : Z) :
  LevelUpAudio.isMilestoneLevel level = true
  <-> level = 10 \/ level = 25 \/ level = 50 \/ level = 75 \/ level = 99.
Proof.
  unfold LevelUpAudio.isMilestoneLevel, LevelUpAudio.MILESTONE_LEVELS.
  rewrite includes_elem_of, !elem_of_cons, elem_of_nil. intuition.
Qed.

(** X16. [playLevelUpFanfare] plays the two-voice fanfare, twelve
    oscillators, exactly at the levels 10, 25, 50, 75 and 99, and the
    four-note arpeggio at every other level; it is the sound the dispatcher
    schedules for that level. *)
Theorem playLevelUpFanfare_picks_by_milestone (level : Z) (ctx : AudioContext)
    (sfxGain : option node) :
  (length (oscillators (fst (playLevelUpFanfare level ctx sfxGain))) = 12%nat
     <-> level = 10 \/ level = 25 \/ level = 50 \/ level = 75 \/ level = 99)
  /\ (length (oscillators (fst (playLevelUpFanfare level ctx sfxGain))) = 4%nat
     <-> ~ (level = 10 \/ level = 25 \/ level = 50 \/ level = 75 \/ level = 99))
  /\ playLevelUpFanfare level ctx sfxGain
     = match LevelUpAudio.playLevelUpFanfare level with
       | LevelUpAudio.MilestoneLevelUpSound => playMilestoneLevelUpSound ctx sfxGain
       | LevelUpAudio.LevelUpSound => playLevelUpSound ctx sfxGain
       end.
Proof.
  pose proof (isMilestoneLevel_true level) as Hiff.
  unfold playLevelUpFanfare, LevelUpAudio.playLevelUpFanfare.
  destruct (LevelUpAudio.isMilestoneLevel level).
  - split; [|split; [|reflexivity]].
    + split; [intros _; apply Hiff; reflexivity | intros _; reflexivity].
    + split; [intros H; discriminate H | intros H; exfalso; apply H, Hiff; reflexivity].
  - split; [|split; [|reflexivity]].
    + split; [intros H; discriminate H | intros H; apply Hiff in H; discriminate H].
    + split; [intros _ H; apply Hiff in H; discriminate H | intros _; reflexivity].
Qed.

End Fanfares.

(** ** The Tauri wrappers *)

Section TauriWrappers.
Import Js Eff Tauri.

Lemma getTauri_cases {A} (rt : runtime) (imported : completion A) :
  getTauri rt imported
  = ([], Normal (if isTauriApp rt
                 then match imported with Normal api => Some api | Throw _ => None end
                 else None)).
Proof.
  unfold getTauri. destruct (isTauriApp rt); [|reflexivity].
  destruct imported; reflexivity.
Qed.

Lemma isTauriApp_window (rt : runtime) :
  isTauriApp rt = true -> window_defined rt = true.
Proof. unfold isTauriApp. intros H. apply andb_true_iff in H. tauto. Qed.

(** X17. [getPlatformInfo] and [onDeepLink] never throw, in any runtime and
    whatever the plugins do; a platform record or an unlisten function is
    returned only inside Tauri, from a call that succeeded, and then nothing
    is written to the console. *)
Theorem platform_and_deep_link_never_throw (rt : runtime) :
  (exists r, outcome (getPlatformInfo rt) = Normal r)
  /\ (exists r, outcome (onDeepLink rt) = Normal r)
  /\ (forall info, outcome (getPlatformInfo rt) = Normal (Some info) ->
        isTauriApp rt = true
        /\ calls (getPlatformInfo rt) = [CoreInvoke "get_platform_info"]
        /\ exists core, import_core rt = Normal core
             /\ invoke core "get_platform_info" = Normal info)
  /\ (forall un, outcome (onDeepLink rt) = Normal (Some un) ->
        isTauriApp rt = true
        /\ calls (onDeepLink rt) = [EventListen "deep-link"]
        /\ exists event, import_event rt = Normal event
             /\ listen event "deep-link" = Normal un).
Proof.
  unfold getPlatformInfo, onDeepLink, getTauriCore, getTauriEvent.
  rewrite !getTauri_cases.
  destruct (isTauriApp rt).
  2:{ cbn. split; [eauto|]. split; [eauto|].
      split; intros x Hx; discriminate Hx. }
  split; [|split; [|split]].
  - destruct (import_core rt) as [core|e1]; cbn; [|eauto].
    destruct (invoke core "get_platform_info"); cbn; eauto.
  - destruct (import_event rt) as [event|e2]; cbn; [|eauto].
    destruct (listen event "deep-link"); cbn; eauto.
  - intros info. destruct (import_core rt) as [core|e1]; cbn;
      [|intros Hx; discriminate Hx].
    destruct (invoke core "get_platform_info") as [i|e3] eqn:Hinv; cbn;
      intros Hx; [|discriminate Hx].
    injection Hx as <-. split; [reflexivity|]. split; [reflexivity|].
    exists core. split; [reflexivity | exact Hinv].
  - intros un. destruct (import_event rt) as [event|e2]; cbn;
      [|intros Hx; discriminate Hx].
    destruct (listen event "deep-link") as [u|e3] eqn:Hl; cbn;
      intros Hx; [|discriminate Hx].
    injection Hx as <-. split; [reflexivity|]. split; [reflexivity|].
    exists event. split; [reflexivity | exact Hl].
Qed.

Lemma openExternalUrl_cases (rt : runtime) (url : string) :
  openExternalUrl rt url
  = match (if isTauriApp rt
           then match import_opener rt with Normal o => Some o | Throw _ => None end
           else None) with
    | Some o =>
        match openUrl o url with
        | Normal _ => ([OpenerOpenUrl url], Normal true)
        | Throw _ =>
            ([OpenerOpenUrl url; ConsoleError "[Tauri] Failed to open URL:"],
             Normal false)
        end
    | None =>
        if window_defined rt then ([WindowOpen url "_blank"], Normal true)
        else ([], Throw (ReferenceError "window is not defined"))
    end.
Proof.
  unfold openExternalUrl, getTauriOpener. rewrite getTauri_cases.
  destruct (isTauriApp rt); [destruct (import_opener rt) as [o|e]|]; cbn.
  - destruct (openUrl o url) as [[]|e]; reflexivity.
  - unfold window_open. destruct (window_defined rt); reflexivity.
  - unfold window_open. destruct (window_defined rt); reflexivity.
Qed.

(** X18. How [openExternalUrl] can end, in any runtime: it throws exactly
    when there is no window; it returns [false] exactly when it runs inside
    Tauri, the opener plugin was imported and its [openUrl] failed, and then
    one line is written to the console; and it never both calls the opener
    and opens a window. *)
Theorem openExternalUrl_outcomes (rt : runtime) (url : string) :
  ((exists e, outcome (openExternalUrl rt url) = Throw e) <-> window_defined rt = false)
  /\ (outcome (openExternalUrl rt url) = Normal false
      <-> isTauriApp rt = true
          /\ exists opener e, import_opener rt = Normal opener
                /\ openUrl opener url = Throw e)
  /\ (outcome (openExternalUrl rt url) = Normal false ->
      calls (openExternalUrl rt url)
      = [OpenerOpenUrl url; ConsoleError "[Tauri] Failed to open URL:"])
  /\ ~ (OpenerOpenUrl url ∈ calls (openExternalUrl rt url)
        /\ WindowOpen url "_blank" ∈ calls (openExternalUrl rt url)).
Proof.
  rewrite openExternalUrl_cases.
  destruct (isTauriApp rt) eqn:Happ.
  - pose proof (isTauriApp_window rt Happ) as Hwin. rewrite Hwin.
    destruct (import_opener rt) as [o|e0].
    + destruct (openUrl o url) as [[]|e1] eqn:Hopen; cbn.
      * split; [split; [intros [e He]; discriminate He | intros Hf; discriminate Hf]|].
        split; [split; [intros Hf; discriminate Hf|]|].
        { intros [_ (o' & e & Ho & He)]. injection Ho as <-. congruence. }
        split; [intros Hf; discriminate Hf|].
        intros [_ Hw]. apply list_elem_of_singleton in Hw. discriminate Hw.
      * split; [split; [intros [e He]; discriminate He | intros Hf; discriminate Hf]|].
        split; [split; [intros _ | intros _; reflexivity]|].
        { split; [reflexivity|]. exists o, e1. split; [reflexivity | exact Hopen]. }
        split; [intros _; reflexivity|].
        intros [_ Hw]. rewrite !elem_of_cons, elem_of_nil in Hw.
        destruct Hw as [Hw|[Hw|[]]]; discriminate Hw.
    + cbn.
      split; [split; [intros [e He]; discriminate He | intros Hf; discriminate Hf]|].
      split; [split; [intros Hf; discriminate Hf|]|].
      { intros [_ (o' & e & Ho & _)]. discriminate Ho. }
      split; [intros Hf; discriminate Hf|].
      intros [Hw _]. apply list_elem_of_singleton in Hw. discriminate Hw.
  - destruct (window_defined rt); cbn.
    + split; [split; [intros [e He]; discriminate He | intros Hf; discriminate Hf]|].
      split; [split; [intros Hf; discriminate Hf | intros [Hf _]; discriminate Hf]|].
      split; [intros Hf; discriminate Hf|].
      intros [Hw _]. apply list_elem_of_singleton in Hw. discriminate Hw.
    + split; [split; [intros _; reflexivity | intros _; eauto]|].
      split; [split; [intros Hf; discriminate Hf | intros [Hf _]; discriminate Hf]|].
      split; [intros Hf; discriminate Hf|].
      intros [Hw _]. inversion Hw.
Qed.

(** X19. A plugin that cannot be imported is treated like a missing native
    layer, silently: inside Tauri, when the import of the opener fails,
    [openExternalUrl] opens a window and returns [true]; when the import of
    the core or event package fails, [getPlatformInfo] and [onDeepLink]
    return null; and nothing is written to the console in any of these
    cases. *)
Theorem failed_import_is_silent (rt : runtime) (url : string) (e : exn) :
  isTauriApp rt = true ->
  (import_opener rt = Throw e ->
     openExternalUrl rt url = ([WindowOpen url "_blank"], Normal true))
  /\ (import_core rt = Throw e -> getPlatformInfo rt = ([], Normal None))
  /\ (import_event rt = Throw e -> onDeepLink rt = ([], Normal None)).
Proof.
  intros Happ. pose proof (isTauriApp_window rt Happ) as Hwin.
  unfold openExternalUrl, getPlatformInfo, onDeepLink,
    getTauriOpener, getTauriCore, getTauriEvent.
  rewrite !getTauri_cases, Happ.
  repeat split; intros ->; cbn; [|reflexivity|reflexivity].
  unfold window_open. rewrite Hwin. reflexivity.
Qed.

(** Witness of X19: the packaged app in which no plugin can be imported. *)
Lemma failed_import_is_silent_witness :
  let rt := {| window_defined := true; TAURI_in_window := true;
               import_event := Throw (Error "no such module");
               import_core := Throw (Error "no such module");
               import_opener := Throw (Error "no such module") |} in
  (import_opener rt = Throw (Error "no such module") ->
     openExternalUrl rt "https://example.com/oauth"
     = ([WindowOpen "https://example.com/oauth" "_blank"], Normal true))
  /\ (import_core rt = Throw (Error "no such module") ->
        getPlatformInfo rt = ([], Normal None))
  /\ (import_event rt = Throw (Error "no such module") ->
        onDeepLink rt = ([], Normal None)).
Proof.
  apply (failed_import_is_silent
           {| window_defined := true; TAURI_in_window := true;
              import_event := Throw (Error "no such module");
              import_core := Throw (Error "no such module");
              import_opener := Throw (Error "no such module") |}
           "https://example.com/oauth" (Error "no such module")).
  reflexivity.
Defined.

(** X20. The error text does not identify a parse failure: a URL that the
    constructor rejects and a URL that parses, carries no code and no state
    and has "Invalid URL" as its error parameter give the same result. *)
Theorem invalid_url_result_is_ambiguous (new_URL : string -> completion URL)
    (rejected parsed : string) (e : exn) (params : list (string * string)) :
  new_URL rejected = Throw e ->
  new_URL parsed = Normal (mkURL params) ->
  searchParams_get params "code" = None ->
  searchParams_get params "state" = None ->
  searchParams_get params "error" = Some "Invalid URL"%string ->
  parseOAuthCallback new_URL parsed = parseOAuthCallback new_URL rejected.
Proof.
  intros Hbad Hgood Hc Hs Herr.
  unfold parseOAuthCallback, lift, bind, try_catch, ret.
  rewrite Hbad, Hgood. cbn. rewrite Hc, Hs, Herr. reflexivity.
Qed.

(** Witness of X20: the sample parser on a string it rejects and on the
    callback URL whose error parameter reads "Invalid URL". *)
Lemma invalid_url_result_is_ambiguous_witness :
  parseOAuthCallback Samples.sampleParser "hyperscape://oauth?error=Invalid%20URL"
  = parseOAuthCallback Samples.sampleParser "not a url".
Proof.
  apply (invalid_url_result_is_ambiguous Samples.sampleParser
           "not a url" "hyperscape://oauth?error=Invalid%20URL"
           (TypeError "Invalid URL") [("error", "Invalid URL")]%string);
    reflexivity.
Defined.

End TauriWrappers.

(** ** The type guards *)

Section TypeGuards.
Import Js Guards.

Lemma get_function_has (props : list (string * value)) (key : string) :
  get props key = VFunction -> has props key = true.
Proof.
  induction props as [|[k v] r IH]; simpl; [discriminate|].
  destruct (String.eqb k key); [reflexivity | exact IH].
Qed.

Lemma typeof_function (v : value) :
  String.eqb (typeof v) "function" = true <-> v = VFunction.
Proof. destruct v; simpl; split; intros H; try discriminate H; reflexivity. Qed.

(** X22. The guards look at nothing but the properties they name.  A value
    that is not a non-null object is rejected by both.  [isChat] accepts an
    object exactly when its [add] is a function, whatever else it carries.
    [isClientAudio] accepts only an object whose [ctx] is an AudioContext
    and whose [ready] is a function, though its [groupGains] may be null;
    where the runtime has no [AudioContext] it still answers [false] for an
    object without [ctx], but throws a ReferenceError for every object that
    has one. *)
Theorem guards_accept_by_shape (hasAudioContext isCtx : bool) (v : value)
    (props : list (string * value)) :
  (isObject v = false ->
     isChat v = false /\ isClientAudio hasAudioContext v = Normal false)
  /\ (isChat (VObject isCtx props) = true <-> get props "add" = VFunction)
  /\ (isClientAudio hasAudioContext (VObject isCtx props) = Normal true ->
       hasAudioContext = true
       /\ (exists ctxProps, get props "ctx" = VObject true ctxProps)
       /\ get props "ready" = VFunction
       /\ (get props "groupGains" = VNull
           \/ exists flag gains, get props "groupGains" = VObject flag gains))
  /\ (has props "ctx" = false ->
       isClientAudio hasAudioContext (VObject isCtx props) = Normal false)
  /\ (has props "ctx" = true ->
       isClientAudio false (VObject isCtx props)
       = Throw (ReferenceError "AudioContext is not defined")).
Proof.
  split; [|split; [|split; [|split]]].
  - destruct v; simpl; intros H; try discriminate H; split; reflexivity.
  - simpl. rewrite andb_true_iff, typeof_function. split.
    + intros [_ H]. exact H.
    + intros H. split; [apply get_function_has; exact H | exact H].
  - unfold isClientAudio, instanceofAudioContext.
    destruct (has props "ctx"); [|intros H; discriminate H]. cbn [and_then].
    destruct hasAudioContext; [|intros H; discriminate H].
    destruct (get props "ctx") as [| | | | | |ctxFlag ctxProps];
      try (intros H; discriminate H).
    destruct ctxFlag; [|intros H; discriminate H]. cbn [and_then].
    destruct (has props "groupGains"); [|intros H; discriminate H]. cbn [and_then].
    destruct (get props "groupGains") as [| | | | | |gFlag gProps]; cbn;
      try (intros H; discriminate H).
    + destruct (has props "ready"); [|intros H; discriminate H]. cbn.
      intros H. injection H as H. apply typeof_function in H.
      repeat split; eauto.
    + destruct (has props "ready"); [|intros H; discriminate H]. cbn.
      intros H. injection H as H. apply typeof_function in H.
      repeat split; eauto.
  - intros H. unfold isClientAudio. rewrite H. reflexivity.
  - intros H. unfold isClientAudio. rewrite H. reflexivity.
Qed.

End TypeGuards.
